(** * Chess-Ai: the evaluator, the alpha-beta search and the move selector

    A shallow embedding of [Chess/main.py] ([evaluate_board], [minimax],
    [find_best_move]) over an abstract rules engine (the [chess] library the
    program imports), followed by the properties of the search-and-evaluation
    core.

    Conventions of the embedding:
    - a score is a Python [int] or one of [float("inf")], [float("-inf")];
      only comparisons, [max] and [min] are applied to scores, and Python
      compares an [int] with a [float] infinity exactly, so scores are the
      integers extended with two infinities ([Score]);
    - the board is one mutable object: [push] and [pop] transform it, and an
      exception leaves it as it is at the raise, so a computation is a function
      from the board to the board afterwards and an [outcome];
    - of the engine, enumerating, applying and undoing a move may raise; an
      enumeration raises before its first move or not at all; reading the
      turn, the placement and the end-of-game tests does not raise;
    - [minimax] catches every [Exception] and returns [(None, None)]; a
      [None] score then raises [TypeError] in the caller's comparison, after
      the caller's [pop];
    - [depth] is a non-negative [int] (the driver passes 5), a [nat] here;
      [depth == 0] is the match on [O] and [depth - 1] the predecessor;
    - [print] is not modelled. *)

From stdpp Require Import base option list gmap fin_maps fin_map_dom.
From Stdlib Require Import ZArith Lia.

Local Open Scope Z_scope.

(** ** Pieces and placements (the part of [chess] the evaluator reads) *)

Inductive Color := WHITE | BLACK.
Inductive PieceType := PAWN | KNIGHT | BISHOP | ROOK | QUEEN | KING.

Record Piece := mkPiece { piece_type : PieceType; color : Color }.

(** Squares are the integers 0..63 of [chess.SQUARES]. *)
Abbreviation Square := N.

#[global] Instance Color_eq_dec : EqDecision Color.
Proof. solve_decision. Defined.
#[global] Instance PieceType_eq_dec : EqDecision PieceType.
Proof. solve_decision. Defined.
#[global] Instance Piece_eq_dec : EqDecision Piece.
Proof. solve_decision. Defined.

(** [chess.PIECE_TYPES] *)
Definition PIECE_TYPES : list PieceType :=
  [PAWN; KNIGHT; BISHOP; ROOK; QUEEN; KING].

(** The dictionary [piece_value]; it has a key for each piece type. *)
Definition piece_value (pt : PieceType) : Z :=
  match pt with
  | PAWN => 1
  | KNIGHT => 3
  | BISHOP => 3
  | ROOK => 5
  | QUEEN => 9
  | KING => 0
  end.

Definition opposite (c : Color) : Color :=
  match c with WHITE => BLACK | BLACK => WHITE end.

(** ** Scores *)

Inductive Score := NegInf | Fin (z : Z) | PosInf.

Definition INFINITY : Score := PosInf.

(** [x < y] on Python numbers. *)
Definition slt (x y : Score) : bool :=
  match x, y with
  | NegInf, NegInf => false
  | NegInf, _ => true
  | Fin a, Fin b => a <? b
  | Fin _, PosInf => true
  | Fin _, NegInf => false
  | PosInf, _ => false
  end.

(** [x > y] *)
Definition sgt (x y : Score) : bool := slt y x.
(** [x >= y]; the order on scores is total (no NaN is ever produced). *)
Definition sge (x y : Score) : bool := negb (slt x y).
(** [x <= y] *)
Definition sle (x y : Score) : bool := negb (slt y x).

(** Python's [max(a, b)] returns [a] unless [b > a]; [min(a, b)] returns [a]
    unless [b < a]. *)
Definition smax (a b : Score) : Score := if sgt b a then b else a.
Definition smin (a b : Score) : Score := if slt b a then b else a.

(** ** Outcomes and computations on the shared board *)

Inductive outcome (A : Type) :=
| Returned (a : A)
| Raised.
Arguments Returned {A} a.
Arguments Raised {A}.

(** How an iteration of a [for] loop ends: normally, or by [break]. *)
Inductive control (S : Type) :=
| Continue (s : S)
| Break (s : S).
Arguments Continue {S} s.
Arguments Break {S} s.

(** ** The rules engine

    What the program uses of a [chess.Board]. Enumerating, applying and
    undoing a move may raise; [push] and [pop] give the board afterwards in
    either case. [board.legal_moves] is a generator in the library; it is
    consumed by the [for] loops only, so it is the list of the moves it
    yields. *)
Class RulesEngine := {
  Board : Type;
  Move : Type;
  turn : Board -> Color;
  piece_map : Board -> gmap Square Piece;
  is_game_over : Board -> bool;
  is_checkmate : Board -> bool;
  legal_moves : Board -> outcome (list Move);
  push : Board -> Move -> Board * outcome unit;
  pop : Board -> Board * outcome unit;
}.

Section Engine.

Context {E : RulesEngine}.

(** [M A]: a computation that may mutate the board and may raise. *)
Definition M (A : Type) : Type := Board -> Board * outcome A.

Definition ret {A} (a : A) : M A := fun b => (b, Returned a).

Definition raise {A} : M A := fun b => (b, Raised).

Definition bind {A B} (m : M A) (k : A -> M B) : M B :=
  fun b =>
    match m b with
    | (b', Returned a) => k a b'
    | (b', Raised) => (b', Raised)
    end.

(** [try: body except Exception: handler] *)
Definition try_except {A} (body handler : M A) : M A :=
  fun b =>
    match body b with
    | (b', Returned a) => (b', Returned a)
    | (b', Raised) => handler b'
    end.

(** Reading the board. *)
Definition ask {A} (f : Board -> A) : M A := fun b => (b, Returned (f b)).

(** A call of the engine that may raise but does not mutate. *)
Definition query {A} (f : Board -> outcome A) : M A := fun b => (b, f b).

(** ** The evaluator *)

(** [board.pieces(piece_type, color)]: the squares holding that piece. *)
Definition pieces (board : Board) (pt : PieceType) (c : Color) : gset Square :=
  dom (filter (fun kv => kv.2 = mkPiece pt c) (piece_map board)).

(** [len(...)] of a square set. *)
Definition len (s : gset Square) : Z := Z.of_nat (size s).

Definition evaluate_board (board : Board) : Z :=
  let score :=
    foldl (fun score piece =>
             score + (len (pieces board piece BLACK)
                      - len (pieces board piece WHITE)) * 10)
          0 PIECE_TYPES in
  (* Calculate material value *)
  let material_value :=
    foldl (fun material_value '(square, piece) =>
             match color piece with
             | WHITE => material_value + piece_value (piece_type piece)
             | BLACK => material_value - piece_value (piece_type piece)
             end)
          0 (map_to_list (piece_map board)) in
  score + material_value.


(** ** The search *)

Notation "x <- m ;; k" := (bind m (fun x => k))
  (at level 100, m at next level, right associativity, only parsing).
Notation "m ;;; k" := (bind m (fun _ => k))
  (at level 100, right associativity, only parsing).

(** What [minimax] returns: [(score, move)], [(score, None)] or, from the
    [except] branch, [(None, None)]. *)
Definition result : Type := option Score * option Move.

(** The local variables of a call of [minimax] that its loops update. *)
Record frame := mkFrame {
  best_score : Score;
  best_move : option Move;
  alpha : Score;
  beta : Score;
}.

(** [for x in xs: body] over the loop variables [s]. *)
Fixpoint for_each {X S} (body : X -> S -> M (control S)) (xs : list X) (s : S)
  : M S :=
  match xs with
  | [] => ret s
  | x :: rest =>
      c <- body x s ;;
      match c with
      | Continue s' => for_each body rest s'
      | Break s' => ret s'
      end
  end.

(** [return evaluate_board(board), None] *)
Definition leaf : M result :=
  e <- ask evaluate_board ;; ret (Some (Fin e), None).

(** The body of the loop of the maximizing branch; [search] is the recursive
    call. Comparing a [None] score raises [TypeError]. *)
Definition max_body (search : Score -> Score -> bool -> M result)
    (move : Move) (v : frame) : M (control frame) :=
  (fun b => push b move) ;;;
  r <- search (alpha v) (beta v) false ;;
  pop ;;;
  match fst r with
  | None => raise
  | Some score =>
      if sgt score (best_score v) then
        let v' := mkFrame score (Some move) (smax (alpha v) score) (beta v) in
        if sge (alpha v') (beta v') then ret (Break v') else ret (Continue v')
      else ret (Continue v)
  end.

(** The body of the loop of the minimizing branch. *)
Definition min_body (search : Score -> Score -> bool -> M result)
    (move : Move) (v : frame) : M (control frame) :=
  (fun b => push b move) ;;;
  r <- search (alpha v) (beta v) true ;;
  pop ;;;
  match fst r with
  | None => raise
  | Some score =>
      if slt score (best_score v) then
        let v' := mkFrame score (Some move) (alpha v) (smin (beta v) score) in
        if sge (alpha v') (beta v') then ret (Break v') else ret (Continue v')
      else ret (Continue v)
  end.

(** The local variables when a loop is entered: [best_score] and [best_move]
    are initialised, then the maximizing branch resets [alpha] and the
    minimizing branch resets [beta]. *)
Definition initial_frame (maximizing_player : bool) (alpha beta : Score)
  : frame :=
  let best_score := if maximizing_player then NegInf else PosInf in
  let best_move := None in
  if maximizing_player then
    let alpha := NegInf in
    mkFrame best_score best_move alpha beta
  else
    let beta := INFINITY in
    mkFrame best_score best_move alpha beta.

(** [return best_score, best_move] *)
Definition frame_result (v : frame) : result :=
  (Some (best_score v), best_move v).

Fixpoint minimax (depth : nat) (alpha beta : Score) (maximizing_player : bool)
  : M result :=
  try_except
    (match depth with
     | O => leaf
     | S depth' =>
         over <- ask is_game_over ;;
         if over : bool then leaf
         else
           let v0 := initial_frame maximizing_player alpha beta in
           if maximizing_player then
             moves <- query legal_moves ;;
             v <- for_each (max_body (minimax depth')) moves v0 ;;
             ret (frame_result v)
           else
             moves <- query legal_moves ;;
             v <- for_each (min_body (minimax depth')) moves v0 ;;
             ret (frame_result v)
     end)
    (* print("An error occurred:", e) *)
    (ret (None, None)).

(** The first lines of [find_best_move]: the flag and the window chosen from
    the side to move. *)
Definition initial_window (t : Color) : bool * Score * Score :=
  match t with
  | BLACK => (true, NegInf, INFINITY)
  | WHITE => (false, INFINITY, NegInf)
  end.

Definition find_best_move (depth : nat) : M result :=
  t <- ask turn ;;
  let '(maximizing_player, alpha, beta) := initial_window t in
  r <- minimax depth alpha beta maximizing_player ;;
  let '(score, best_move) := r in
  mate <- match best_move with
          | None => ask is_checkmate
          | Some _ => ret false
          end ;;
  if mate : bool then
    t <- ask turn ;;
    ret (Some (match t with WHITE => NegInf | BLACK => INFINITY end), None)
  else ret (score, best_move).


(** ** Specification-side definitions

    These follow the words of the specification; the theorems below compare
    them with the program. *)

(** The board after [move] is applied. *)
Definition after (board : Board) (move : Move) : Board := fst (push board move).

(** The moves the engine enumerates (none when the enumeration raises). *)
Definition moves_of (board : Board) : list Move :=
  match legal_moves board with
  | Returned moves => moves
  | Raised => []
  end.

(** Brute-force minimax: same depth, same evaluator, same move order, no
    window and no cutoff. *)
Fixpoint brute_force (depth : nat) (maximizing : bool) (board : Board) : Score :=
  match depth with
  | O => Fin (evaluate_board board)
  | S depth' =>
      if is_game_over board then Fin (evaluate_board board)
      else if maximizing then
        foldl (fun best move =>
                 smax best (brute_force depth' false (after board move)))
              NegInf (moves_of board)
      else
        foldl (fun best move =>
                 smin best (brute_force depth' true (after board move)))
              PosInf (moves_of board)
  end.

(** The unpruned choice keeps the first move, in enumeration order, that
    reaches the best unpruned value: an incumbent is replaced only by a
    strictly better value. *)
Definition keep_first (better : Score -> Score -> bool) (value : Move -> Score)
    (incumbent : Score * option Move) (move : Move) : Score * option Move :=
  if better (value move) (fst incumbent) then (value move, Some move)
  else incumbent.

Definition brute_force_choice (depth : nat) (maximizing : bool) (board : Board)
  : Score * option Move :=
  match depth with
  | O => (Fin (evaluate_board board), None)
  | S depth' =>
      if is_game_over board then (Fin (evaluate_board board), None)
      else if maximizing then
        foldl (keep_first sgt
                 (fun move => brute_force depth' false (after board move)))
              (NegInf, None) (moves_of board)
      else
        foldl (keep_first slt
                 (fun move => brute_force depth' true (after board move)))
              (PosInf, None) (moves_of board)
  end.

(** [visits body xs s b s']: the loop [for x in xs: body], entered with
    variables [s] on board [b], starts some iteration with variables [s']. *)
Inductive visits {X S} (body : X -> S -> M (control S))
  : list X -> S -> Board -> S -> Prop :=
| visits_now x rest s b :
    visits body (x :: rest) s b s
| visits_later x rest s b b1 s1 s' :
    body x s b = (b1, Returned (Continue s1)) ->
    visits body rest s1 b1 s' ->
    visits body (x :: rest) s b s'.

(** Canonical piece values of the specification. *)
Definition canonical_value (kind : PieceType) : Z :=
  match kind with
  | PAWN => 1 | KNIGHT => 3 | BISHOP => 3 | ROOK => 5 | QUEEN => 9 | KING => 0
  end.

(** The pieces on the board, each with its square. *)
Definition pieces_on (board : Board) : list (Square * Piece) :=
  map_to_list (piece_map board).

(** Count of the pieces of a kind for a side. *)
Definition count_of (board : Board) (kind : PieceType) (side : Color) : Z :=
  Z.of_nat (length (filter (fun sp => sp.2 = mkPiece kind side)
                           (pieces_on board))).

Definition sum_Z (l : list Z) : Z := foldr Z.add 0 l.

(** Term 1, the piece-count differential with weight [w1]. *)
Definition count_differential (w1 : Z) (board : Board) : Z :=
  sum_Z (map (fun kind =>
                (count_of board kind BLACK - count_of board kind WHITE) * w1)
             PIECE_TYPES).

(** Term 2, the material-value differential. *)
Definition material_differential (board : Board) : Z :=
  sum_Z (map (fun sp : Square * Piece =>
                match color sp.2 with
                | WHITE => canonical_value (piece_type sp.2)
                | BLACK => - canonical_value (piece_type sp.2)
                end)
             (pieces_on board)).

(** Every piece recoloured to the opposite side. *)
Definition recolor (p : Piece) : Piece :=
  mkPiece (piece_type p) (opposite (color p)).

Definition sides_swapped (board board' : Board) : Prop :=
  piece_map board' = recolor <$> piece_map board.

(** The variables an iteration leaves behind. *)
Definition frame_of {S} (c : control S) : S :=
  match c with Continue s => s | Break s => s end.

(** The loop body of a call, by its flag, and the test that lets a score
    replace the incumbent. *)
Definition body_of (maximizing_player : bool) :=
  if maximizing_player then max_body else min_body.

Definition improves (maximizing_player : bool) (score best : Score) : bool :=
  if maximizing_player then sgt score best else slt score best.

(** The cutoff test of a call with window [(a, b)], right after [s] became
    its best score: [alpha >= beta] with alpha = [s] when maximizing and
    beta = [s] when minimizing. *)
Definition cutoff (maximizing_player : bool) (a b s : Score) : bool :=
  if maximizing_player then sge s b else sge a s.

(** What a pruned call may return for a node of true value [v]: a maximizing
    call returns [v], or a lower bound of [v] that reaches [b]; a minimizing
    call returns [v], or an upper bound of [v] that is at most [a]. *)
Definition sound (maximizing : bool) (a b v s : Score) : Prop :=
  if maximizing
  then sle s v = true /\ (s = v \/ sle b s = true)
  else sle v s = true /\ (s = v \/ sle s a = true).

(** [search] answers within the bounds of [sound] at depth [d], on the board
    it was given. *)
Definition answers (d : nat) (search : Score -> Score -> bool -> M result)
  : Prop :=
  forall mx a b board, exists s mv,
    search a b mx board = (board, Returned (Some s, mv))
    /\ sound mx a b (brute_force d mx board) s.

(** [search] returns an integer score on the board it was given. *)
Definition finite_search (search : Score -> Score -> bool -> M result) : Prop :=
  forall a b mx board, exists z mv,
    search a b mx board = (board, Returned (Some (Fin z), mv)).

(** The incumbent of [v] is a move with an integer score. *)
Definition improved (v : frame) : Prop :=
  exists z m, best_score v = Fin z /\ best_move v = Some m.

(** [search] returns normally on the board it was given. *)
Definition in_place (search : Score -> Score -> bool -> M result) : Prop :=
  forall a b mx board, exists r, search a b mx board = (board, Returned r).

(** ** Contracts of the rules engine *)

(** Undoing restores the board, and a [push] that raises changes nothing. *)
Class UndoSafe : Prop := {
  pop_push : forall b m b',
    push b m = (b', Returned tt) -> pop b' = (b, Returned tt);
  push_raised : forall b m b',
    push b m = (b', Raised) -> b' = b;
}.

(** The engine never raises on the calls the search makes. *)
Class Reliable : Prop := {
  legal_moves_returns : forall b, exists moves, legal_moves b = Returned moves;
  push_returns : forall b m, exists b', push b m = (b', Returned tt);
  pop_undoes : forall b m b',
    push b m = (b', Returned tt) -> pop b' = (b, Returned tt);
}.

(** A game that is not over has a legal move (no move means checkmate or
    stalemate). *)
Definition no_dead_end : Prop :=
  forall b, is_game_over b = false -> legal_moves b <> Returned [].

End Engine.

Arguments UndoSafe E : clear implicits.
Arguments Reliable E : clear implicits.
Arguments no_dead_end E : clear implicits.

(** ** The game driver

    [play_chess] builds its board from a line of the input file and plays the
    game: the side to move asks [find_best_move] at depth 5, and the move is
    pushed. The script below it runs [play_chess] on every line. A [while]
    loop takes one unit of [fuel] per iteration; [None] means the fuel ran
    out, it is no value of the program. Nothing here catches an exception:
    a [push] or a [chess.Board(fen)] that raises ends the program. *)

(** Reading a position: [str.strip] and [chess.Board(fen)], which raises on a
    malformed line. *)
Class FenReader (E : RulesEngine) := {
  Text : Type;
  strip : Text -> Text;
  new_board : Text -> outcome Board;
}.

Section Driver.

Context {E : RulesEngine}.

Notation "x <- m ;; k" := (bind m (fun x => k))
  (at level 100, m at next level, right associativity, only parsing).
Notation "m ;;; k" := (bind m (fun _ => k))
  (at level 100, right associativity, only parsing).

(** The closures of [play_chess]; [depth] is the variable they capture. *)
Definition black_ai (depth : nat) (move_count : Z) : M result :=
  r <- find_best_move depth ;;
  match snd r with
  | None => ret (fst r, None)
  | Some move => ret (fst r, Some move)
  end.

Definition white_ai (depth : nat) (move_count : Z) : M result :=
  r <- find_best_move depth ;;
  match snd r with
  | None => ret (fst r, None)
  | Some move => ret (fst r, Some move)
  end.

(** The [while] loop of [play_chess] with its [return] statement: the result
    is [(black_count, white_count)]. *)
Fixpoint play_loop (depth fuel : nat) (no_move_count black_count white_count : Z)
  : M (option (Z * Z)) :=
  over <- ask is_game_over ;;
  if over : bool then ret (Some (black_count, white_count))
  else
    match fuel with
    | O => ret None
    | S fuel' =>
        t <- ask turn ;;
        played <-
          match t with
          | WHITE =>
              r <- white_ai depth no_move_count ;;
              ret (snd r, black_count, white_count + 1)
          | BLACK =>
              r <- black_ai depth no_move_count ;;
              ret (snd r, black_count + 1, white_count)
          end ;;
        let '(move, black_count, white_count) := played in
        match move with
        | None =>
            let no_move_count := no_move_count + 1 in
            if 2 <=? no_move_count then ret (Some (black_count, white_count))
            else play_loop depth fuel' no_move_count black_count white_count
        | Some move =>
            let no_move_count := 0 in
            (fun b => push b move) ;;;
            mate <- ask is_checkmate ;;
            if mate : bool then ret (Some (black_count, white_count))
            else
              over <- ask is_game_over ;;
              if over : bool then ret (Some (black_count, white_count))
              else play_loop depth fuel' no_move_count black_count white_count
        end
    end.

Context {R : FenReader E}.

Definition play_chess (fuel : nat) (fen : Text) (black_count white_count : Z)
  : outcome (option (Z * Z)) :=
  match new_board fen with
  | Raised => Raised
  | Returned board =>
      let depth := 5%nat in
      let no_move_count := 0 in
      snd (play_loop depth fuel no_move_count black_count white_count board)
  end.

(** The loop of the script over the lines of the file, on the variables
    [black_count], [white_count] and [games]. *)
Fixpoint play_boards (fuel : nat) (fens : list Text)
    (black_count white_count games : Z) : outcome (option (Z * Z * Z)) :=
  match fens with
  | [] => Returned (Some (black_count, white_count, games))
  | fen :: rest =>
      let fen := strip fen in
      let games := games + 1 in
      match new_board fen with
      | Raised => Raised
      | Returned board =>
          let '(black_count, white_count) :=
            if is_game_over board then (0, 0) else (black_count, white_count) in
          match play_chess fuel fen black_count white_count with
          | Raised => Raised
          | Returned None => Returned None
          | Returned (Some (black_count, white_count)) =>
              play_boards fuel rest black_count white_count games
          end
      end
  end.

(** The script, from the lines read from the file. *)
Definition main (fuel : nat) (fens : list Text) : outcome (option (Z * Z * Z)) :=
  let black_count := 0 in
  let white_count := 0 in
  let games := 0 in
  play_boards fuel fens black_count white_count games.

(** *** Specification side of the driver *)

(** One more move counted for the side [t]. *)
Definition tick (t : Color) (counts : Z * Z) : Z * Z :=
  match t with
  | WHITE => (fst counts, snd counts + 1)
  | BLACK => (fst counts + 1, snd counts)
  end.

(** The move each side plays: white the first enumerated one, black the
    unpruned choice at [depth]. *)
Definition ai_choice (depth : nat) (board : Board) : option Move :=
  match turn board with
  | WHITE => head (moves_of board)
  | BLACK => snd (brute_force_choice depth true board)
  end.

(** The game as a referee would replay it: the final board and the counts. *)
Fixpoint referee (depth fuel : nat) (board : Board) (counts : Z * Z)
  : option (Board * (Z * Z)) :=
  if is_game_over board then Some (board, counts)
  else
    match fuel with
    | O => None
    | S fuel' =>
        match ai_choice depth board with
        | None => None
        | Some move =>
            let board' := after board move in
            let counts' := tick (turn board) counts in
            if is_checkmate board' then Some (board', counts')
            else referee depth fuel' board' counts'
        end
    end.

(** Every move of a game that is not over brings the end nearer by [rank]. *)
Definition shrinking (rank : Board -> nat) : Prop :=
  forall board move,
    is_game_over board = false ->
    In move (moves_of board) ->
    (rank (after board move) < rank board)%nat.

(** 1 when the piece [p] is the piece [q], 0 otherwise. *)
Definition counts_as (p q : Piece) : Z := if decide (p = q) then 1 else 0.

(** What a piece adds to the evaluation. *)
Definition piece_weight (p : Piece) : Z :=
  match color p with
  | BLACK => 10 - piece_value (piece_type p)
  | WHITE => piece_value (piece_type p) - 10
  end.

End Driver.

Arguments shrinking E : clear implicits.

(** ** A rules engine over explicit game trees

    A position carries its placement, the side to move, whether that side is
    in check, whether a draw rule ends the game, and its moves with the
    positions they lead to. The board keeps the stack of the positions it went
    through, as [chess.Board] does. [pos_fault] marks a position whose
    enumeration raises when the engine is built with faults. *)

Abbreviation TreeMove := (Square * Square)%type.

#[warnings="-register-all"]
Inductive Position := mkPosition {
  pos_turn : Color;
  pos_pieces : gmap Square Piece;
  pos_check : bool;
  pos_draw : bool;
  pos_fault : bool;
  pos_next : list (TreeMove * Position);
}.

Record TreeBoard := mkTreeBoard {
  current : Position;
  stack : list Position;
}.

Fixpoint successor (m : TreeMove) (next : list (TreeMove * Position))
  : option Position :=
  match next with
  | [] => None
  | (m', p) :: rest => if decide (m = m') then Some p else successor m rest
  end.

Definition tree_push (b : TreeBoard) (m : TreeMove) : TreeBoard * outcome unit :=
  (mkTreeBoard (default (current b) (successor m (pos_next (current b))))
               (current b :: stack b),
   Returned tt).

(** [pop] on an empty move stack raises [IndexError]. *)
Definition tree_pop (b : TreeBoard) : TreeBoard * outcome unit :=
  match stack b with
  | [] => (b, Raised)
  | p :: rest => (mkTreeBoard p rest, Returned tt)
  end.

Definition no_moves (p : Position) : bool :=
  match pos_next p with [] => true | _ => false end.

Definition tree_engine (faults : bool) : RulesEngine := {|
  Board := TreeBoard;
  Move := TreeMove;
  turn b := pos_turn (current b);
  piece_map b := pos_pieces (current b);
  is_game_over b := no_moves (current b) || pos_draw (current b);
  is_checkmate b := no_moves (current b) && pos_check (current b);
  legal_moves b :=
    if faults && pos_fault (current b) then Raised
    else Returned (map fst (pos_next (current b)));
  push := tree_push;
  pop := tree_pop;
|}.

(** A fresh board set up at a position. *)
Definition board_at (p : Position) : TreeBoard := mkTreeBoard p [].

(** A line of the file is a position, or is malformed. *)
Definition tree_new_board (t : option Position) : outcome TreeBoard :=
  match t with
  | Some p => Returned (board_at p)
  | None => Raised
  end.

Definition tree_reader (faults : bool) : FenReader (tree_engine faults) :=
  Build_FenReader (tree_engine faults) (option Position) (fun t => t)
    tree_new_board.

(** The number of plies of the longest line of play from a position. *)
Fixpoint height (p : Position) : nat :=
  match p with
  | mkPosition _ _ _ _ _ next =>
      (fix heights (l : list (TreeMove * Position)) : nat :=
         match l with
         | [] => O
         | (_, q) :: rest => Nat.max (S (height q)) (heights rest)
         end) next
  end.

(** ** Concrete positions *)

Definition wK : Piece := mkPiece KING WHITE.
Definition bK : Piece := mkPiece KING BLACK.
Definition bP : Piece := mkPiece PAWN BLACK.
Definition bQ : Piece := mkPiece QUEEN BLACK.
Definition wQ : Piece := mkPiece QUEEN WHITE.

Definition A1 : Square := 0%N.
Definition B1 : Square := 1%N.
Definition A2 : Square := 8%N.
Definition B2 : Square := 9%N.
Definition H8 : Square := 63%N.

(** White king a1, black pawn a2, black king h8, white to move
    ([7k/8/8/8/8/8/p7/K7 w - - 0 1]). The library enumerates the king's moves
    by descending target square, and b1 is covered by the pawn, so the legal
    moves are a1b2 then a1a2 (the capture). The tree is cut one ply down. *)
Definition kp_after_b2 : Position :=
  mkPosition BLACK {[ B2 := wK; A2 := bP; H8 := bK ]} false false false [].

Definition kp_after_xa2 : Position :=
  mkPosition BLACK {[ A2 := wK; H8 := bK ]} false true false [].

Definition kp_root : Position :=
  mkPosition WHITE {[ A1 := wK; A2 := bP; H8 := bK ]} false false false
    [ ((A1, B2), kp_after_b2); ((A1, A2), kp_after_xa2) ].

(** A leaf holding [n] black queens: its evaluation is [n]. *)
Definition queens (n : nat) : gmap Square Piece :=
  list_to_map (map (fun i => (N.of_nat i, bQ)) (seq 0 n)).

Definition leaf_of (t : Color) (n : nat) : Position :=
  mkPosition t (queens n) false false false [].

Definition node (t : Color) (next : list (TreeMove * Position)) : Position :=
  mkPosition t ∅ false false false next.

(** Two plies, black to move: the first move leads to a reply worth 3, the
    second to replies worth 4 and 0. *)
Definition two_ply : Position :=
  node BLACK
    [ ((A1, A2), node WHITE [ ((H8, A1), leaf_of BLACK 3) ]);
      ((A1, B1), node WHITE [ ((H8, A1), leaf_of BLACK 4);
                              ((H8, B1), leaf_of BLACK 0) ]) ].

(** One ply, black to move, two moves of equal worth. *)
Definition tie : Position :=
  node BLACK [ ((A1, A2), leaf_of WHITE 2); ((A1, B1), leaf_of WHITE 2) ].

(** A position whose second move leads where the enumeration raises. *)
Definition faulty : Position :=
  node BLACK
    [ ((A1, A2), node WHITE [ ((H8, A1), leaf_of BLACK 1) ]);
      ((A1, B1), mkPosition WHITE ∅ false false true
                   [ ((H8, A1), leaf_of BLACK 2) ]) ].

(** A stalemate and a checkmate, white to move. *)
Definition stalemate : Position :=
  mkPosition WHITE {[ A1 := wK; H8 := bK; B2 := bQ ]} false false false [].
Definition checkmate : Position :=
  mkPosition WHITE {[ A1 := wK; H8 := bK; B2 := bQ ]} true false false [].

(** The stalemate position with every piece recoloured. *)
Definition stalemate_recolored : Position :=
  mkPosition WHITE {[ A1 := bK; H8 := wK; B2 := wQ ]} false false false [].

(** * Properties *)

(** ** The tree engine honours the contracts *)

Lemma tree_engine_undo_safe faults : UndoSafe (tree_engine faults).
Proof.
  split.
  - intros [p st] m b' Hpush. simpl in *. unfold tree_push in Hpush.
    inversion Hpush; subst. reflexivity.
  - intros b m b' Hpush. simpl in *. unfold tree_push in Hpush. discriminate.
Qed.

Lemma tree_engine_reliable : Reliable (tree_engine false).
Proof.
  split.
  - intros b. simpl. eauto.
  - intros b m. simpl. unfold tree_push. eauto.
  - apply (@pop_push _ (tree_engine_undo_safe false)).
Qed.

Lemma tree_engine_no_dead_end : no_dead_end (tree_engine false).
Proof.
  intros b Hover. simpl in *. unfold no_moves in Hover.
  destruct (pos_next (current b)); simpl in *; [discriminate | congruence].
Qed.

Section Properties.

Context {E : RulesEngine}.

(** ** The search leaves the board as it found it *)

Lemma for_each_keeps {X S} (body : X -> S -> M (control S)) :
  (forall x s board, fst (body x s board) = board) ->
  forall xs s board, fst (for_each body xs s board) = board.
Proof.
  intros Hbody xs. induction xs as [|x xs IH]; intros s board; simpl.
  - reflexivity.
  - unfold bind. specialize (Hbody x s board).
    destruct (body x s board) as [b' [[s'|s']|]]; simpl in *; subst; auto.
Qed.

Section Undo.

Context {HU : UndoSafe E}.

Lemma max_body_keeps search :
  in_place search ->
  forall move v board, fst (max_body search move v board) = board.
Proof.
  intros Hs move v board. unfold max_body, bind.
  destruct (push board move) as [b1 [[]|]] eqn:Hpush.
  - destruct (Hs (alpha v) (beta v) false b1) as [r ->].
    rewrite (pop_push _ _ _ Hpush).
    destruct (fst r) as [score|]; [|reflexivity].
    destruct (sgt score (best_score v)); [|reflexivity].
    simpl. destruct (sge _ _); reflexivity.
  - simpl. eapply push_raised; eauto.
Qed.

Lemma min_body_keeps search :
  in_place search ->
  forall move v board, fst (min_body search move v board) = board.
Proof.
  intros Hs move v board. unfold min_body, bind.
  destruct (push board move) as [b1 [[]|]] eqn:Hpush.
  - destruct (Hs (alpha v) (beta v) true b1) as [r ->].
    rewrite (pop_push _ _ _ Hpush).
    destruct (fst r) as [score|]; [|reflexivity].
    destruct (slt score (best_score v)); [|reflexivity].
    simpl. destruct (sge _ _); reflexivity.
  - simpl. eapply push_raised; eauto.
Qed.

(** A [try] whose body keeps the board returns on that board. *)
Lemma try_except_in_place (body : M result) board :
  fst (body board) = board ->
  exists r, try_except body (ret (None, None)) board = (board, Returned r).
Proof.
  intros Hb. unfold try_except, ret.
  destruct (body board) as [b' [r|]]; simpl in *; subst; eauto.
Qed.

End Undo.

(** C6. Whatever the depth, the window and the flag, and whichever way the
    call ends (base case, end of the loop, cutoff, or the [except] branch
    after the engine raised), [minimax] returns, and the board is then the
    board it was called on, provided the engine undoes what it applied. *)
Theorem undo_integrity (HU : UndoSafe E) depth alpha0 beta0 maximizing_player
    (board : Board) :
  exists r,
    minimax depth alpha0 beta0 maximizing_player board = (board, Returned r).
Proof.
  revert alpha0 beta0 maximizing_player board.
  induction depth as [|d IH]; intros a b mx board; simpl;
    apply try_except_in_place.
  - reflexivity.
  - unfold bind, ask, query.
    destruct (is_game_over board); [reflexivity|].
    destruct mx.
    + destruct (legal_moves board) as [moves|]; [|reflexivity].
      pose proof (for_each_keeps _ (max_body_keeps _ IH) moves
                    (initial_frame true a b) board) as Hk.
      destruct (for_each _ _ _ _) as [b' [v|]]; simpl in *; subst; reflexivity.
    + destruct (legal_moves board) as [moves|]; [|reflexivity].
      pose proof (for_each_keeps _ (min_body_keeps _ IH) moves
                    (initial_frame false a b) board) as Hk.
      destruct (for_each _ _ _ _) as [b' [v|]]; simpl in *; subst; reflexivity.
Qed.

(** ** The base case *)

(** C9. At depth 0, and at any depth on a position where the game is over,
    [minimax] returns [(evaluate_board(board), None)] for every window and
    flag. *)
Theorem base_case depth alpha0 beta0 maximizing_player (board : Board) :
  depth = O \/ is_game_over board = true ->
  minimax depth alpha0 beta0 maximizing_player board
  = (board, Returned (Some (Fin (evaluate_board board)), None)).
Proof.
  intros [-> | Hover].
  - reflexivity.
  - destruct depth as [|d]; [reflexivity|].
    simpl. unfold try_except, bind, ask. rewrite Hover. reflexivity.
Qed.

End Properties.

(** The error branch is reached on the tree with a faulty enumeration, and
    the board is restored there too. *)
Lemma undo_integrity_witness :
  minimax (E := tree_engine true) 2 NegInf PosInf true (board_at faulty)
  = (board_at faulty, Returned (None, None)).
Proof.
  destruct (undo_integrity (E := tree_engine true) (tree_engine_undo_safe true)
              2 NegInf PosInf true (board_at faulty)) as [r Hr].
  rewrite Hr. f_equal.
  assert (Hs : snd (minimax (E := tree_engine true) 2 NegInf PosInf true
                      (board_at faulty)) = Returned (None, None))
    by (vm_compute; reflexivity).
  rewrite Hr in Hs. exact Hs.
Defined.

Lemma base_case_witness :
  minimax (E := tree_engine false) 3 (Fin 1) (Fin 2) false (board_at stalemate)
  = (board_at stalemate, Returned (Some (Fin 1), None)).
Proof.
  apply (base_case (E := tree_engine false) 3 (Fin 1) (Fin 2) false
           (board_at stalemate)).
  right. reflexivity.
Defined.

(** ** The evaluator *)

Section Evaluator.

Context {E : RulesEngine}.

Lemma canonical_value_piece_value kind : piece_value kind = canonical_value kind.
Proof. destruct kind; reflexivity. Qed.

(** The square set of a kind and side has as many squares as the placement
    has such pieces. *)
Lemma len_pieces (board : Board) kind side :
  len (pieces board kind side) = count_of board kind side.
Proof.
  unfold len, pieces, count_of, pieces_on. f_equal.
  rewrite size_dom, map_filter_alt, map_size_list_to_map; [reflexivity|].
  apply (sublist_NoDup _ (map_to_list (piece_map board)).*1).
  - apply NoDup_fst_map_to_list.
  - apply fmap_sublist, sublist_filter.
Qed.

Lemma material_loop (l : list (Square * Piece)) acc :
  foldl (fun material_value '(square, piece) =>
           match color piece with
           | WHITE => material_value + piece_value (piece_type piece)
           | BLACK => material_value - piece_value (piece_type piece)
           end) acc l
  = acc + sum_Z (map (fun sp : Square * Piece =>
                        match color sp.2 with
                        | WHITE => canonical_value (piece_type sp.2)
                        | BLACK => - canonical_value (piece_type sp.2)
                        end) l).
Proof.
  revert acc. induction l as [|[sq p] l IH]; intros acc; simpl.
  - lia.
  - rewrite IH, canonical_value_piece_value. destruct (color p); lia.
Qed.

Lemma evaluate_board_terms (board : Board) :
  evaluate_board board
  = count_differential 10 board + material_differential board.
Proof.
  unfold evaluate_board, count_differential, material_differential, pieces_on.
  rewrite material_loop. f_equal.
  unfold PIECE_TYPES. simpl. rewrite !len_pieces. lia.
Qed.

Lemma count_of_recolor (l : list (Square * Piece)) kind side :
  length (filter (fun sp => sp.2 = mkPiece kind side)
                 (prod_map id recolor <$> l))
  = length (filter (fun sp => sp.2 = mkPiece kind (opposite side)) l).
Proof.
  induction l as [|[sq [k c]] l IH]; [reflexivity|].
  rewrite fmap_cons, !filter_cons. simpl.
  unfold recolor in *.
  destruct c, side, (decide (k = kind)); subst; simpl in *;
    repeat case_decide; simpl; congruence.
Qed.

Lemma material_recolor (l : list (Square * Piece)) :
  sum_Z (map (fun sp : Square * Piece =>
                match color sp.2 with
                | WHITE => canonical_value (piece_type sp.2)
                | BLACK => - canonical_value (piece_type sp.2)
                end) (prod_map id recolor <$> l))
  = - sum_Z (map (fun sp : Square * Piece =>
                    match color sp.2 with
                    | WHITE => canonical_value (piece_type sp.2)
                    | BLACK => - canonical_value (piece_type sp.2)
                    end) l).
Proof.
  induction l as [|[sq [k c]] l IH]; [reflexivity|].
  rewrite fmap_cons. simpl in *. rewrite IH. destruct c; simpl; lia.
Qed.

Lemma count_differential_swapped (board board' : Board) w1 :
  sides_swapped board board' ->
  count_differential w1 board' = - count_differential w1 board.
Proof.
  intros Hs. unfold count_differential, count_of, pieces_on.
  rewrite Hs, map_to_list_fmap. unfold PIECE_TYPES. simpl.
  rewrite !count_of_recolor. simpl. lia.
Qed.

Lemma material_differential_swapped (board board' : Board) :
  sides_swapped board board' ->
  material_differential board' = - material_differential board.
Proof.
  intros Hs. unfold material_differential, pieces_on.
  rewrite Hs, map_to_list_fmap. apply material_recolor.
Qed.

(** C7. [evaluate_board] is the sum of the piece-count differential (black
    minus white per kind, weight 10) and the material-value differential
    (canonical values: added for white pieces, subtracted for black ones). *)
Theorem evaluate_board_is_two_terms (board : Board) :
  evaluate_board board
  = sum_Z (map (fun kind =>
                  (count_of board kind BLACK - count_of board kind WHITE) * 10)
               PIECE_TYPES)
    + sum_Z (map (fun sp : Square * Piece =>
                    match color sp.2 with
                    | WHITE => canonical_value (piece_type sp.2)
                    | BLACK => - canonical_value (piece_type sp.2)
                    end)
                 (pieces_on board)).
Proof.
  unfold evaluate_board, pieces_on. rewrite material_loop. f_equal.
  unfold PIECE_TYPES. simpl. rewrite !len_pieces. lia.
Qed.

(** C8. Recolouring every piece negates the evaluation, and each of the two
    differentials. *)
Theorem evaluate_board_sides_swapped (board board' : Board) :
  sides_swapped board board' ->
  evaluate_board board' = - evaluate_board board
  /\ count_differential 10 board' = - count_differential 10 board
  /\ material_differential board' = - material_differential board.
Proof.
  intros Hs. rewrite !evaluate_board_terms.
  rewrite (count_differential_swapped _ _ _ Hs).
  rewrite (material_differential_swapped _ _ Hs).
  repeat split; lia.
Qed.

End Evaluator.

(** ** Scores are totally ordered *)

Ltac score_cases :=
  intros;
  unfold improves, smax, smin, sgt, sge, sle, INFINITY in *;
  repeat match goal with s : Score |- _ => destruct s end;
  simpl in *;
  repeat match goal with
         | H : context [(?a <? ?b)] |- _ =>
             let Hc := fresh in
             destruct (a <? b) eqn:Hc;
             [apply Z.ltb_lt in Hc | apply Z.ltb_ge in Hc]
         | |- context [(?a <? ?b)] =>
             let Hc := fresh in
             destruct (a <? b) eqn:Hc;
             [apply Z.ltb_lt in Hc | apply Z.ltb_ge in Hc]
         end;
  simpl in *; try congruence; try lia;
  try (f_equal; lia).

Lemma sle_refl x : sle x x = true.
Proof. score_cases. Qed.

Lemma sle_trans x y z : sle x y = true -> sle y z = true -> sle x z = true.
Proof. score_cases. Qed.

Lemma sle_antisym x y : sle x y = true -> sle y x = true -> x = y.
Proof. score_cases. Qed.

Lemma smax_ge_l x y : sle x (smax x y) = true.
Proof. score_cases. Qed.

Lemma smin_le_l x y : sle (smin x y) x = true.
Proof. score_cases. Qed.

Lemma smax_improved x y : sgt y x = true -> smax x y = y.
Proof. score_cases. Qed.

Lemma smin_improved x y : slt y x = true -> smin x y = y.
Proof. score_cases. Qed.

Lemma smax_absorb x y z :
  sle y z = true -> sgt z x = false -> smax x y = x.
Proof. score_cases. Qed.

Lemma smin_absorb x y z :
  sle z y = true -> slt z x = false -> smin x y = x.
Proof. score_cases. Qed.

Section Loops.

Context {E : RulesEngine}.

(** ** One iteration *)

Lemma max_body_step search move v (board b1 b2 b3 : Board) r :
  push board move = (b1, Returned tt) ->
  search (alpha v) (beta v) false b1 = (b2, Returned r) ->
  pop b2 = (b3, Returned tt) ->
  max_body search move v board
  = match fst r with
    | None => (b3, Raised)
    | Some score =>
        (b3, Returned
               (if sgt score (best_score v) then
                  let v' := mkFrame score (Some move) (smax (alpha v) score)
                              (beta v) in
                  if sge (alpha v') (beta v') then Break v' else Continue v'
                else Continue v))
    end.
Proof.
  intros Hpush Hs Hpop. unfold max_body, bind. rewrite Hpush, Hs, Hpop.
  destruct (fst r) as [score|]; [|reflexivity].
  destruct (sgt score (best_score v)); [|reflexivity].
  simpl. destruct (sge _ _); reflexivity.
Qed.

Lemma min_body_step search move v (board b1 b2 b3 : Board) r :
  push board move = (b1, Returned tt) ->
  search (alpha v) (beta v) true b1 = (b2, Returned r) ->
  pop b2 = (b3, Returned tt) ->
  min_body search move v board
  = match fst r with
    | None => (b3, Raised)
    | Some score =>
        (b3, Returned
               (if slt score (best_score v) then
                  let v' := mkFrame score (Some move) (alpha v)
                              (smin (beta v) score) in
                  if sge (alpha v') (beta v') then Break v' else Continue v'
                else Continue v))
    end.
Proof.
  intros Hpush Hs Hpop. unfold min_body, bind. rewrite Hpush, Hs, Hpop.
  destruct (fst r) as [score|]; [|reflexivity].
  destruct (slt score (best_score v)); [|reflexivity].
  simpl. destruct (sge _ _); reflexivity.
Qed.

(** One iteration of either loop: the incumbent is replaced exactly when
    the score of the recursive call is strictly better (greater when
    maximizing, smaller when minimizing); otherwise, and so on a tie, the
    variables are left as they were and the loop goes on. *)
Theorem tie_break maximizing_player search move v (board b1 b2 b3 : Board)
    score mv :
  push board move = (b1, Returned tt) ->
  search (alpha v) (beta v) (negb maximizing_player) b1
    = (b2, Returned (Some score, mv)) ->
  pop b2 = (b3, Returned tt) ->
  exists c,
    body_of maximizing_player search move v board = (b3, Returned c)
    /\ (improves maximizing_player score (best_score v) = true ->
        best_score (frame_of c) = score
        /\ best_move (frame_of c) = Some move)
    /\ (improves maximizing_player score (best_score v) = false ->
        c = Continue v)
    /\ (score = best_score v -> c = Continue v).
Proof.
  intros Hpush Hs Hpop. destruct maximizing_player; simpl in *.
  - rewrite (max_body_step _ _ _ _ _ _ _ _ Hpush Hs Hpop). simpl.
    eexists; split; [reflexivity|].
    destruct (sgt score (best_score v)) eqn:Hgt.
    + repeat split; try discriminate.
      * destruct (sge _ _); reflexivity.
      * destruct (sge _ _); reflexivity.
      * intros ->. clear -Hgt. destruct v as [bs ? ? ?]; simpl in *.
        score_cases.
    + repeat split; try discriminate; reflexivity.
  - rewrite (min_body_step _ _ _ _ _ _ _ _ Hpush Hs Hpop). simpl.
    eexists; split; [reflexivity|].
    destruct (slt score (best_score v)) eqn:Hlt.
    + repeat split; try discriminate.
      * destruct (sge _ _); reflexivity.
      * destruct (sge _ _); reflexivity.
      * intros ->. clear -Hlt. destruct v as [bs ? ? ?]; simpl in *.
        score_cases.
    + repeat split; try discriminate; reflexivity.
Qed.

(** The loop a call runs: on a position that is not over, at depth
    [S d], the call iterates its body over the enumerated moves, from the
    variables of [initial_frame]. *)
Lemma minimax_loop d a b mx (board : Board) moves :
  is_game_over board = false ->
  legal_moves board = Returned moves ->
  minimax (S d) a b mx board
  = try_except
      (bind (for_each (body_of mx (minimax d)) moves (initial_frame mx a b))
            (fun v => ret (frame_result v)))
      (ret (None, None)) board.
Proof.
  intros Hover Hmoves. simpl. unfold try_except, bind, ask, query.
  rewrite Hover. destruct mx; rewrite Hmoves; reflexivity.
Qed.

(** Over a whole loop the incumbent is either the one the loop was entered
    with, or a move of the loop with a strictly better score. *)
Lemma max_body_keeps_or_improves search move v (board b' : Board) c :
  max_body search move v board = (b', Returned c) ->
  (best_score (frame_of c) = best_score v
   /\ best_move (frame_of c) = best_move v)
  \/ (sgt (best_score (frame_of c)) (best_score v) = true
      /\ best_move (frame_of c) = Some move).
Proof.
  unfold max_body, bind, raise, ret.
  destruct (push board move) as [b1 [[]|]]; [|discriminate].
  destruct (search _ _ _ b1) as [b2 [r|]]; [|discriminate].
  destruct (pop b2) as [b3 [[]|]]; [|discriminate].
  destruct (fst r) as [score|]; [|discriminate].
  destruct (sgt score (best_score v)) eqn:Hgt.
  - simpl. destruct (sge _ _); intros [= <- <-]; right; auto.
  - intros [= <- <-]; left; auto.
Qed.

Lemma min_body_keeps_or_improves search move v (board b' : Board) c :
  min_body search move v board = (b', Returned c) ->
  (best_score (frame_of c) = best_score v
   /\ best_move (frame_of c) = best_move v)
  \/ (slt (best_score (frame_of c)) (best_score v) = true
      /\ best_move (frame_of c) = Some move).
Proof.
  unfold min_body, bind, raise, ret.
  destruct (push board move) as [b1 [[]|]]; [|discriminate].
  destruct (search _ _ _ b1) as [b2 [r|]]; [|discriminate].
  destruct (pop b2) as [b3 [[]|]]; [|discriminate].
  destruct (fst r) as [score|]; [|discriminate].
  destruct (slt score (best_score v)) eqn:Hlt.
  - simpl. destruct (sge _ _); intros [= <- <-]; right; auto.
  - intros [= <- <-]; left; auto.
Qed.

Lemma slt_trans x y z : slt x y = true -> slt y z = true -> slt x z = true.
Proof. score_cases. Qed.

Lemma loop_keeps_or_improves mx search moves v (board b' : Board) v' :
  for_each (body_of mx search) moves v board = (b', Returned v') ->
  (best_score v' = best_score v /\ best_move v' = best_move v)
  \/ (improves mx (best_score v') (best_score v) = true
      /\ exists move, In move moves /\ best_move v' = Some move).
Proof.
  revert v board. induction moves as [|m rest IH]; intros v board; simpl.
  - unfold ret. intros [= <- <-]. left; auto.
  - unfold bind.
    destruct (body_of mx search m v board) as [b1 [c|]] eqn:Hbody;
      [|discriminate].
    assert ((best_score (frame_of c) = best_score v
             /\ best_move (frame_of c) = best_move v)
            \/ (improves mx (best_score (frame_of c)) (best_score v) = true
                /\ best_move (frame_of c) = Some m)) as Hstep.
    { destruct mx; simpl in Hbody |- *.
      - apply (max_body_keeps_or_improves _ _ _ _ _ _ Hbody).
      - apply (min_body_keeps_or_improves _ _ _ _ _ _ Hbody). }
    destruct c as [v1|v1]; simpl in Hstep.
    + intros Hrest. destruct (IH _ _ Hrest) as [[Hs Hm] | [Hi (m' & Hin & Hm)]].
      * rewrite Hs, Hm. destruct Hstep as [? | [? ?]]; [left; auto|].
        right. split; [assumption|]. exists m. auto.
      * right. split; [|exists m'; auto].
        destruct Hstep as [[Hs _] | [Hi1 _]]; [rewrite <- Hs; exact Hi|].
        destruct mx; simpl in *; unfold sgt in *; eapply slt_trans; eauto.
    + unfold ret. intros [= <- <-].
      destruct Hstep as [? | [? ?]]; [left; auto|].
      right. split; [assumption|]. exists m. auto.
Qed.

(** ** The bound a loop carries *)

Lemma max_body_bound search move v (board b' : Board) c :
  alpha v = best_score v ->
  max_body search move v board = (b', Returned c) ->
  alpha (frame_of c) = best_score (frame_of c)
  /\ beta (frame_of c) = beta v.
Proof.
  intros Hv. unfold max_body, bind, raise, ret.
  destruct (push board move) as [b1 [[]|]]; [|discriminate].
  destruct (search _ _ _ b1) as [b2 [r|]]; [|discriminate].
  destruct (pop b2) as [b3 [[]|]]; [|discriminate].
  destruct (fst r) as [score|]; [|discriminate].
  destruct (sgt score (best_score v)) eqn:Hgt.
  - rewrite Hv. rewrite (smax_improved _ _ Hgt). simpl.
    destruct (sge _ _); intros [= <- <-]; auto.
  - intros [= <- <-]; auto.
Qed.

Lemma min_body_bound search move v (board b' : Board) c :
  beta v = best_score v ->
  min_body search move v board = (b', Returned c) ->
  beta (frame_of c) = best_score (frame_of c)
  /\ alpha (frame_of c) = alpha v.
Proof.
  intros Hv. unfold min_body, bind, raise, ret.
  destruct (push board move) as [b1 [[]|]]; [|discriminate].
  destruct (search _ _ _ b1) as [b2 [r|]]; [|discriminate].
  destruct (pop b2) as [b3 [[]|]]; [|discriminate].
  destruct (fst r) as [score|]; [|discriminate].
  destruct (slt score (best_score v)) eqn:Hlt.
  - rewrite Hv. rewrite (smin_improved _ _ Hlt). simpl.
    destruct (sge _ _); intros [= <- <-]; auto.
  - intros [= <- <-]; auto.
Qed.

Lemma visits_max_bound search moves v0 (board : Board) v :
  alpha v0 = best_score v0 ->
  visits (max_body search) moves v0 board v ->
  alpha v = best_score v /\ beta v = beta v0.
Proof.
  intros Hv0 Hvis. induction Hvis as [|x rest s b b1 s1 s' Hb _ IH]; [auto|].
  destruct (max_body_bound _ _ _ _ _ _ Hv0 Hb) as [Ha Hbeta]. simpl in *.
  rewrite <- Hbeta. apply IH. exact Ha.
Qed.

Lemma visits_min_bound search moves v0 (board : Board) v :
  beta v0 = best_score v0 ->
  visits (min_body search) moves v0 board v ->
  beta v = best_score v /\ alpha v = alpha v0.
Proof.
  intros Hv0 Hvis. induction Hvis as [|x rest s b b1 s1 s' Hb _ IH]; [auto|].
  destruct (min_body_bound _ _ _ _ _ _ Hv0 Hb) as [Ha Hbeta]. simpl in *.
  rewrite <- Hbeta. apply IH. exact Ha.
Qed.

(** The caller's bound does not reach the loop. *)
Lemma minimax_ignores_bound depth a a' b b' (board : Board) :
  minimax depth a b true board = minimax depth a' b true board
  /\ minimax depth a b false board = minimax depth a b' false board.
Proof. destruct depth; split; reflexivity. Qed.

(** C4, as the program has it. In a maximizing call, whatever alpha the
    caller supplied, every iteration starts with alpha equal to the best score
    found so far in this call (minus infinity before the first improvement),
    that is the alpha passed to the recursive call, and the iteration leaves
    alpha equal to the new best score, which is the alpha of the cutoff test;
    beta stays the caller's. Mirrored for beta in a minimizing call. *)
Theorem bound_is_best_score maximizing_player search moves alpha0 beta0
    (board : Board) v :
  visits (body_of maximizing_player search) moves
         (initial_frame maximizing_player alpha0 beta0) board v ->
  (if maximizing_player
   then alpha v = best_score v /\ beta v = beta0
   else beta v = best_score v /\ alpha v = alpha0)
  /\ forall move b1 b2 c,
       body_of maximizing_player search move v b1 = (b2, Returned c) ->
       if maximizing_player
       then alpha (frame_of c) = best_score (frame_of c)
       else beta (frame_of c) = best_score (frame_of c).
Proof.
  intros Hvis. destruct maximizing_player; simpl in *.
  - destruct (visits_max_bound search moves (initial_frame true alpha0 beta0)
                board v eq_refl Hvis) as [Ha Hb].
    split; [auto|]. intros move b1 b2 c Hc.
    apply (max_body_bound _ _ _ _ _ _ Ha Hc).
  - destruct (visits_min_bound search moves (initial_frame false alpha0 beta0)
                board v eq_refl Hvis) as [Ha Hb].
    split; [auto|]. intros move b1 b2 c Hc.
    apply (min_body_bound _ _ _ _ _ _ Ha Hc).
Qed.

End Loops.

(** ** The search over an engine that does not raise *)

Section ReliableEngine.

Context {E : RulesEngine} {HR : Reliable E}.

Lemma push_after (board : Board) move :
  push board move = (after board move, Returned tt).
Proof.
  destruct (push_returns board move) as [b' Hb]. unfold after.
  rewrite Hb. reflexivity.
Qed.

Lemma pop_after (board : Board) move :
  pop (after board move) = (board, Returned tt).
Proof. eapply pop_undoes, push_after. Qed.

Lemma legal_moves_of (board : Board) :
  legal_moves board = Returned (moves_of board).
Proof.
  unfold moves_of. destruct (legal_moves_returns board) as [l ->]. reflexivity.
Qed.

Lemma minimax_leaf depth a b mx (board : Board) :
  depth = O \/ is_game_over board = true ->
  minimax depth a b mx board
  = (board, Returned (Some (Fin (evaluate_board board)), None)).
Proof.
  intros [-> | Hover]; [reflexivity|].
  destruct depth as [|d]; [reflexivity|].
  simpl. unfold try_except, bind, ask. rewrite Hover. reflexivity.
Qed.

(** *** Pruned and unpruned values *)

Lemma fold_smax_ge {X} (g : X -> Score) l x :
  sle x (foldl (fun best m => smax best (g m)) x l) = true.
Proof.
  revert x. induction l as [|m l IH]; intros x; simpl.
  - apply sle_refl.
  - eapply sle_trans; [apply smax_ge_l | apply IH].
Qed.

Lemma fold_smin_le {X} (g : X -> Score) l x :
  sle (foldl (fun best m => smin best (g m)) x l) x = true.
Proof.
  revert x. induction l as [|m l IH]; intros x; simpl.
  - apply sle_refl.
  - eapply sle_trans; [apply IH | apply smin_le_l].
Qed.

Lemma max_loop_sound d search :
  answers d search ->
  forall moves B bm bound (board : Board),
  exists v,
    for_each (max_body search) moves (mkFrame B bm B bound) board
    = (board, Returned v)
    /\ sound true NegInf bound
         (foldl (fun best move =>
                   smax best (brute_force d false (after board move)))
                B moves)
         (best_score v).
Proof.
  intros Hs moves. induction moves as [|m rest IH]; intros B bm bound board.
  - eexists. split; [reflexivity|]. simpl. split; [apply sle_refl | auto].
  - simpl for_each. unfold bind at 1.
    destruct (Hs false B bound (after board m)) as (s1 & mv1 & Hrun & Hle & Hex).
    rewrite (max_body_step search m (mkFrame B bm B bound) board _ _ _ _
               (push_after _ _) Hrun (pop_after _ _)).
    cbn [fst best_score alpha beta foldl].
    set (v1 := brute_force d false (after board m)) in *.
    destruct (sgt s1 B) eqn:Hgt.
    + assert (s1 = v1) as Heq by (destruct Hex; [assumption | score_cases]).
      rewrite (smax_improved _ _ Hgt).
      assert (smax B v1 = s1) as -> by (rewrite <- Heq; apply smax_improved, Hgt).
      cbv zeta. cbn [alpha beta]. destruct (sge s1 bound) eqn:Hge.
      * eexists. split; [reflexivity|]. cbn [best_score]. split.
        -- apply fold_smax_ge.
        -- right. clear -Hge. score_cases.
      * apply IH.
    + assert (smax B v1 = B) as -> by (eapply smax_absorb; eauto).
      apply IH.
Qed.

Lemma min_loop_sound d search :
  answers d search ->
  forall moves B bm bound (board : Board),
  exists v,
    for_each (min_body search) moves (mkFrame B bm bound B) board
    = (board, Returned v)
    /\ sound false bound PosInf
         (foldl (fun best move =>
                   smin best (brute_force d true (after board move)))
                B moves)
         (best_score v).
Proof.
  intros Hs moves. induction moves as [|m rest IH]; intros B bm bound board.
  - eexists. split; [reflexivity|]. simpl. split; [apply sle_refl | auto].
  - simpl for_each. unfold bind at 1.
    destruct (Hs true bound B (after board m)) as (s1 & mv1 & Hrun & Hle & Hex).
    rewrite (min_body_step search m (mkFrame B bm bound B) board _ _ _ _
               (push_after _ _) Hrun (pop_after _ _)).
    cbn [fst best_score alpha beta foldl].
    set (v1 := brute_force d true (after board m)) in *.
    destruct (slt s1 B) eqn:Hlt.
    + assert (s1 = v1) as Heq by (destruct Hex; [assumption | score_cases]).
      rewrite (smin_improved _ _ Hlt).
      assert (smin B v1 = s1) as -> by (rewrite <- Heq; apply smin_improved, Hlt).
      cbv zeta. cbn [alpha beta]. destruct (sge bound s1) eqn:Hge.
      * eexists. split; [reflexivity|]. cbn [best_score]. split.
        -- apply fold_smin_le.
        -- right. clear -Hge. score_cases.
      * apply IH.
    + assert (smin B v1 = B) as -> by (eapply smin_absorb; eauto).
      apply IH.
Qed.

Lemma minimax_sound depth : answers depth (minimax depth).
Proof.
  induction depth as [|d IH]; intros mx a b board.
  - exists (Fin (evaluate_board board)), None. split; [reflexivity|].
    destruct mx; simpl; (split; [apply sle_refl | auto]).
  - destruct (is_game_over board) eqn:Hover.
    + exists (Fin (evaluate_board board)), None.
      split; [apply minimax_leaf; auto|].
      simpl. rewrite Hover.
      destruct mx; simpl; (split; [apply sle_refl | auto]).
    + simpl. unfold try_except, bind, ask, query. rewrite Hover.
      destruct mx; rewrite legal_moves_of.
      * destruct (max_loop_sound d _ IH (moves_of board) NegInf None b board)
          as (v & Hrun & Hv).
        cbn [initial_frame]. rewrite Hrun. unfold ret, frame_result.
        eexists _, _. split; [reflexivity|].
        destruct Hv as [Hle Hex]. simpl. auto.
      * destruct (min_loop_sound d _ IH (moves_of board) PosInf None a board)
          as (v & Hrun & Hv).
        cbn [initial_frame]. unfold INFINITY. rewrite Hrun.
        unfold ret, frame_result.
        eexists _, _. split; [reflexivity|].
        destruct Hv as [Hle Hex]. simpl. auto.
Qed.

(** With the full window a maximizing call returns the brute-force value; so
    does a minimizing call whose alpha is minus infinity. This is the search
    [find_best_move] starts when black is to move. *)
Lemma pruning_equivalence_full_window depth a b (board : Board) :
  (exists mv,
     minimax depth a PosInf true board
     = (board, Returned (Some (brute_force depth true board), mv)))
  /\ (exists mv,
        minimax depth NegInf b false board
        = (board, Returned (Some (brute_force depth false board), mv))).
Proof.
  split.
  - destruct (minimax_sound depth true a PosInf board)
      as (s & mv & Hrun & Hle & Hex).
    exists mv. rewrite Hrun. repeat f_equal.
    destruct Hex as [Heq | Hb]; [assumption|].
    apply sle_antisym; [assumption|].
    generalize dependent (brute_force depth true board). clear -Hb.
    score_cases.
  - destruct (minimax_sound depth false NegInf b board)
      as (s & mv & Hrun & Hle & Hex).
    exists mv. rewrite Hrun. repeat f_equal.
    destruct Hex as [Heq | Hb]; [assumption|].
    apply sle_antisym; [|assumption].
    generalize dependent (brute_force depth false board). clear -Hb.
    score_cases.
Qed.

Lemma pruning_equivalence_black depth (board : Board) :
  turn board = BLACK ->
  exists mv,
    let '(mx, a, b) := initial_window (turn board) in
    minimax depth a b mx board
    = (board, Returned (Some (brute_force depth mx board), mv)).
Proof.
  intros ->. simpl. apply (pruning_equivalence_full_window depth NegInf PosInf).
Qed.

(** *** The move of the full-window search *)

Lemma keep_first_max_score (g : Move -> Score) l inc :
  fst (foldl (keep_first sgt g) inc l)
  = foldl (fun best m => smax best (g m)) (fst inc) l.
Proof.
  revert inc. induction l as [|m l IH]; intros inc; simpl; [reflexivity|].
  rewrite IH. f_equal. unfold keep_first, smax.
  destruct (sgt (g m) (fst inc)); reflexivity.
Qed.

Lemma keep_first_min_score (g : Move -> Score) l inc :
  fst (foldl (keep_first slt g) inc l)
  = foldl (fun best m => smin best (g m)) (fst inc) l.
Proof.
  revert inc. induction l as [|m l IH]; intros inc; simpl; [reflexivity|].
  rewrite IH. f_equal. unfold keep_first, smin.
  destruct (slt (g m) (fst inc)); reflexivity.
Qed.

Lemma brute_force_choice_score depth mx (board : Board) :
  fst (brute_force_choice depth mx board) = brute_force depth mx board.
Proof.
  destruct depth as [|d]; simpl; [reflexivity|].
  destruct (is_game_over board); [reflexivity|].
  destruct mx; [apply keep_first_max_score | apply keep_first_min_score].
Qed.

Lemma keep_first_top (g : Move -> Score) l bm :
  foldl (keep_first sgt g) (PosInf, bm) l = (PosInf, bm).
Proof.
  induction l as [|m l IH]; simpl; [reflexivity|].
  unfold keep_first at 2. simpl.
  replace (sgt (g m) PosInf) with false by (destruct (g m); reflexivity).
  exact IH.
Qed.

Lemma keep_first_bottom (g : Move -> Score) l bm :
  foldl (keep_first slt g) (NegInf, bm) l = (NegInf, bm).
Proof.
  induction l as [|m l IH]; simpl; [reflexivity|].
  unfold keep_first at 2. simpl.
  replace (slt (g m) NegInf) with false by (destruct (g m); reflexivity).
  exact IH.
Qed.

Lemma max_loop_choice d search :
  answers d search ->
  forall moves B bm (board : Board),
  exists v,
    for_each (max_body search) moves (mkFrame B bm B PosInf) board
    = (board, Returned v)
    /\ (best_score v, best_move v)
       = foldl (keep_first sgt
                  (fun move => brute_force d false (after board move)))
               (B, bm) moves.
Proof.
  intros Hs moves. induction moves as [|m rest IH]; intros B bm board.
  - eexists. split; reflexivity.
  - simpl for_each. unfold bind at 1.
    destruct (Hs false B PosInf (after board m)) as (s1 & mv1 & Hrun & Hle & Hex).
    rewrite (max_body_step search m (mkFrame B bm B PosInf) board _ _ _ _
               (push_after _ _) Hrun (pop_after _ _)).
    cbn [fst best_score alpha beta foldl]. unfold keep_first at 2. cbn [fst].
    set (v1 := brute_force d false (after board m)) in *.
    destruct (sgt s1 B) eqn:Hgt.
    + assert (s1 = v1) as Heq by (destruct Hex; [assumption | score_cases]).
      rewrite <- Heq, Hgt, (smax_improved _ _ Hgt).
      cbv zeta. cbn [alpha beta]. destruct (sge s1 PosInf) eqn:Hge.
      * assert (s1 = PosInf) as -> by (clear -Hge; score_cases).
        eexists. split; [reflexivity|]. cbn [best_score best_move].
        symmetry. apply keep_first_top.
      * apply IH.
    + replace (sgt v1 B) with false by (clear -Hle Hgt; score_cases).
      apply IH.
Qed.

Lemma min_loop_choice d search :
  answers d search ->
  forall moves B bm (board : Board),
  exists v,
    for_each (min_body search) moves (mkFrame B bm NegInf B) board
    = (board, Returned v)
    /\ (best_score v, best_move v)
       = foldl (keep_first slt
                  (fun move => brute_force d true (after board move)))
               (B, bm) moves.
Proof.
  intros Hs moves. induction moves as [|m rest IH]; intros B bm board.
  - eexists. split; reflexivity.
  - simpl for_each. unfold bind at 1.
    destruct (Hs true NegInf B (after board m)) as (s1 & mv1 & Hrun & Hle & Hex).
    rewrite (min_body_step search m (mkFrame B bm NegInf B) board _ _ _ _
               (push_after _ _) Hrun (pop_after _ _)).
    cbn [fst best_score alpha beta foldl]. unfold keep_first at 2. cbn [fst].
    set (v1 := brute_force d true (after board m)) in *.
    destruct (slt s1 B) eqn:Hlt.
    + assert (s1 = v1) as Heq by (destruct Hex; [assumption | score_cases]).
      rewrite <- Heq, Hlt, (smin_improved _ _ Hlt).
      cbv zeta. cbn [alpha beta]. destruct (sge NegInf s1) eqn:Hge.
      * assert (s1 = NegInf) as -> by (clear -Hge; score_cases).
        eexists. split; [reflexivity|]. cbn [best_score best_move].
        symmetry. apply keep_first_bottom.
      * apply IH.
    + replace (slt v1 B) with false by (clear -Hle Hlt; score_cases).
      apply IH.
Qed.

(** With the full window the pruned search returns the score and the move
    of the unpruned choice. *)
Lemma minimax_full_window_choice depth a b (board : Board) :
  minimax depth a PosInf true board
  = (board, Returned (Some (fst (brute_force_choice depth true board)),
                      snd (brute_force_choice depth true board)))
  /\ minimax depth NegInf b false board
     = (board, Returned (Some (fst (brute_force_choice depth false board)),
                         snd (brute_force_choice depth false board))).
Proof.
  destruct depth as [|d]; [split; reflexivity|].
  destruct (is_game_over board) eqn:Hover.
  - rewrite !minimax_leaf by auto. simpl. rewrite Hover. split; reflexivity.
  - simpl. unfold try_except, bind, ask, query. rewrite Hover, legal_moves_of.
    split.
    + destruct (max_loop_choice d _ (minimax_sound d) (moves_of board)
                  NegInf None board) as (v & Hrun & Hv).
      cbn [initial_frame]. rewrite Hrun, <- Hv. reflexivity.
    + destruct (min_loop_choice d _ (minimax_sound d) (moves_of board)
                  PosInf None board) as (v & Hrun & Hv).
      cbn [initial_frame]. unfold INFINITY. rewrite Hrun, <- Hv. reflexivity.
Qed.

(** *** Integer scores and the move of a live position *)

Lemma max_loop_finite search :
  finite_search search ->
  forall moves v (board : Board),
  exists v',
    for_each (max_body search) moves v board = (board, Returned v')
    /\ (v' = v \/ improved v')
    /\ (best_score v = NegInf -> moves <> [] -> improved v').
Proof.
  intros Hs moves. induction moves as [|m rest IH]; intros v board.
  - exists v. split; [reflexivity|]. split; [auto | congruence].
  - simpl for_each. unfold bind at 1.
    destruct (Hs (alpha v) (beta v) false (after board m)) as (z & mv1 & Hrun).
    rewrite (max_body_step search m v board _ _ _ _
               (push_after _ _) Hrun (pop_after _ _)).
    cbn [fst]. cbv zeta. cbn [alpha beta].
    destruct (sgt (Fin z) (best_score v)) eqn:Hgt.
    + assert (improved (mkFrame (Fin z) (Some m) (smax (alpha v) (Fin z))
                          (beta v))) as Himp by (exists z, m; auto).
      destruct (sge _ _).
      * eexists. split; [reflexivity|]. auto.
      * destruct (IH (mkFrame (Fin z) (Some m) (smax (alpha v) (Fin z))
                        (beta v)) board) as (v' & Hrun' & [Heq | Hv'] & _);
          exists v'; subst; auto.
    + destruct (IH v board) as (v' & Hrun' & Hv' & _).
      exists v'. split; [assumption|]. split; [assumption|].
      intros Hneg _. rewrite Hneg in Hgt. discriminate.
Qed.

Lemma min_loop_finite search :
  finite_search search ->
  forall moves v (board : Board),
  exists v',
    for_each (min_body search) moves v board = (board, Returned v')
    /\ (v' = v \/ improved v')
    /\ (best_score v = PosInf -> moves <> [] -> improved v').
Proof.
  intros Hs moves. induction moves as [|m rest IH]; intros v board.
  - exists v. split; [reflexivity|]. split; [auto | congruence].
  - simpl for_each. unfold bind at 1.
    destruct (Hs (alpha v) (beta v) true (after board m)) as (z & mv1 & Hrun).
    rewrite (min_body_step search m v board _ _ _ _
               (push_after _ _) Hrun (pop_after _ _)).
    cbn [fst]. cbv zeta. cbn [alpha beta].
    destruct (slt (Fin z) (best_score v)) eqn:Hlt.
    + assert (improved (mkFrame (Fin z) (Some m) (alpha v)
                          (smin (beta v) (Fin z)))) as Himp
        by (exists z, m; auto).
      destruct (sge _ _).
      * eexists. split; [reflexivity|]. auto.
      * destruct (IH (mkFrame (Fin z) (Some m) (alpha v)
                        (smin (beta v) (Fin z))) board)
          as (v' & Hrun' & [Heq | Hv'] & _);
          exists v'; subst; auto.
    + destruct (IH v board) as (v' & Hrun' & Hv' & _).
      exists v'. split; [assumption|]. split; [assumption|].
      intros Hpos _. rewrite Hpos in Hlt. discriminate.
Qed.

Section Live.

Hypothesis HD : no_dead_end E.

Lemma live_has_move (board : Board) :
  is_game_over board = false -> moves_of board <> [].
Proof.
  intros Hover Hnil. apply (HD board Hover).
  rewrite legal_moves_of, Hnil. reflexivity.
Qed.

(** Every call returns an integer score, and it returns a move unless it
    stopped at the base case. *)
Lemma minimax_finite depth a b mx (board : Board) :
  exists z mv,
    minimax depth a b mx board = (board, Returned (Some (Fin z), mv))
    /\ (mv = None -> depth = O \/ is_game_over board = true).
Proof.
  revert a b mx board. induction depth as [|d IH]; intros a b mx board.
  - eexists _, _. split; [reflexivity | auto].
  - destruct (is_game_over board) eqn:Hover.
    + eexists _, _. split; [apply minimax_leaf; auto | auto].
    + assert (finite_search (minimax d)) as Hfin.
      { intros a' b' mx' board'.
        destruct (IH a' b' mx' board') as (z & mv & Hrun & _). eauto. }
      simpl. unfold try_except, bind, ask, query. rewrite Hover.
      destruct mx; rewrite legal_moves_of.
      * destruct (max_loop_finite _ Hfin (moves_of board)
                    (initial_frame true a b) board) as (v & Hrun & _ & Himp).
        rewrite Hrun. unfold ret, frame_result.
        destruct (Himp eq_refl (live_has_move _ Hover)) as (z & m & -> & ->).
        eexists _, _. split; [reflexivity | discriminate].
      * destruct (min_loop_finite _ Hfin (moves_of board)
                    (initial_frame false a b) board) as (v & Hrun & _ & Himp).
        rewrite Hrun. unfold ret, frame_result.
        destruct (Himp eq_refl (live_has_move _ Hover)) as (z & m & -> & ->).
        eexists _, _. split; [reflexivity | discriminate].
Qed.

End Live.

(** How [find_best_move] finishes once the search has returned in place. *)
Lemma find_best_move_finish depth (board : Board) score best_move :
  (let '(mx, a, b) := initial_window (turn board) in
   minimax depth a b mx board) = (board, Returned (score, best_move)) ->
  find_best_move depth board
  = (board,
     Returned
       (match best_move with
        | None =>
            if is_checkmate board
            then (Some (match turn board with
                        | WHITE => NegInf
                        | BLACK => PosInf
                        end), None)
            else (score, None)
        | Some move => (score, Some move)
        end)).
Proof.
  intros Hrun. unfold find_best_move, bind, ask.
  destruct (initial_window (turn board)) as [[mx a] b].
  rewrite Hrun. destruct best_move as [move|]; [reflexivity|].
  unfold ret. destruct (is_checkmate board); reflexivity.
Qed.

(** With black to move, [find_best_move] returns the unpruned choice, with
    the score +infinity instead when that choice is no move on a checkmate. *)
Lemma find_best_move_black depth (board : Board) :
  turn board = BLACK ->
  find_best_move depth board
  = (board,
     Returned
       (match snd (brute_force_choice depth true board) with
        | None =>
            if is_checkmate board then (Some PosInf, None)
            else (Some (brute_force depth true board), None)
        | Some move => (Some (brute_force depth true board), Some move)
        end)).
Proof.
  intros Hturn.
  rewrite (find_best_move_finish depth board
             (Some (fst (brute_force_choice depth true board)))
             (snd (brute_force_choice depth true board))).
  - rewrite Hturn, brute_force_choice_score. reflexivity.
  - rewrite Hturn. cbn [initial_window].
    apply (minimax_full_window_choice depth NegInf PosInf).
Qed.

(** C3. With white to move on a position that is not over, at depth 1 or
    more, [find_best_move] returns the first move of the enumeration: the
    search is seeded with alpha = +infinity, the score of the first move is an
    integer (it is the unpruned value of that move), it improves on
    +infinity, and the cutoff [alpha >= beta] ends the loop at once. *)
Theorem white_plays_first_move (HD : no_dead_end E) depth (board : Board) :
  turn board = WHITE ->
  is_game_over board = false ->
  depth <> O ->
  exists first rest z,
    legal_moves board = Returned (first :: rest)
    /\ brute_force (pred depth) true (after board first) = Fin z
    /\ find_best_move depth board
       = (board, Returned (Some (Fin z), Some first)).
Proof.
  intros Hturn Hover Hdepth.
  destruct depth as [|d]; [congruence|]. clear Hdepth.
  pose proof (live_has_move HD board Hover) as Hmoves.
  pose proof (legal_moves_of board) as Hlegal.
  destruct (moves_of board) as [|first rest]; [congruence|]. clear Hmoves.
  destruct (minimax_finite HD d PosInf PosInf true (after board first))
    as (z & mv & Hrun & _).
  exists first, rest, z. split; [assumption|].
  destruct (pruning_equivalence_full_window d PosInf PosInf (after board first))
    as [[mv' Hexact] _].
  rewrite Hrun in Hexact. injection Hexact as Hz _.
  split; [symmetry; exact Hz|].
  apply find_best_move_finish with (best_move := Some first).
  rewrite Hturn. cbn [initial_window].
  simpl minimax. unfold try_except, bind at 1, ask. rewrite Hover.
  unfold bind at 1, query. rewrite Hlegal.
  simpl for_each. unfold bind, INFINITY.
  rewrite (min_body_step (minimax d) first (mkFrame PosInf None PosInf PosInf)
             board _ _ _ _ (push_after _ _) Hrun (pop_after _ _)).
  reflexivity.
Qed.

(** C5. When the search returns no move, [find_best_move] returns no move
    either: on a checkmate with the score -infinity if white is to move and
    +infinity if black is, otherwise with the score of the search, which is
    the evaluation of the position. *)
Theorem terminal_correction (HD : no_dead_end E) depth (board : Board) :
  (exists score,
     snd (let '(mx, a, b) := initial_window (turn board) in
          minimax depth a b mx board) = Returned (score, None)) ->
  find_best_move depth board
  = (board,
     Returned
       (if is_checkmate board
        then (Some (match turn board with
                    | WHITE => NegInf
                    | BLACK => PosInf
                    end), None)
        else (Some (Fin (evaluate_board board)), None)))
  /\ (let '(mx, a, b) := initial_window (turn board) in
      minimax depth a b mx board)
     = (board, Returned (Some (Fin (evaluate_board board)), None)).
Proof.
  intros [score Hnone].
  assert ((let '(mx, a, b) := initial_window (turn board) in
           minimax depth a b mx board)
          = (board, Returned (Some (Fin (evaluate_board board)), None)))
    as Hrun.
  { destruct (initial_window (turn board)) as [[mx a] b].
    destruct (minimax_finite HD depth a b mx board) as (z & mv & Hrun & Hbase).
    rewrite Hrun in Hnone. simpl in Hnone.
    assert (mv = None) as -> by congruence.
    apply minimax_leaf. auto. }
  split; [|exact Hrun].
  rewrite (find_best_move_finish depth board _ _ Hrun). reflexivity.
Qed.

End ReliableEngine.

(** ** The move a call returns *)

Section FirstBest.

Context {E : RulesEngine} {HR : Reliable E}.

Lemma sgt_unique s v B :
  sle v s = true -> s = v \/ sle s B = true -> sgt s B = true -> s = v.
Proof. intros Hle [Heq | Hout] Hgt; [exact Heq|]. score_cases. Qed.

Lemma sgt_below s v B :
  sle v s = true -> sgt s B = false -> sgt v B = false.
Proof. score_cases. Qed.

Lemma sgt_chain x y z : sgt x y = true -> sgt y z = true -> sgt x z = true.
Proof. score_cases. Qed.

Lemma sgt_over x y z : sgt x z = true -> sgt y z = false -> sgt x y = true.
Proof. score_cases. Qed.

Lemma slt_unique s v B :
  sle s v = true -> s = v \/ sle B s = true -> slt s B = true -> s = v.
Proof. intros Hle [Heq | Hout] Hlt; [exact Heq|]. score_cases. Qed.

Lemma slt_above s v B :
  sle s v = true -> slt s B = false -> slt v B = false.
Proof. score_cases. Qed.

Lemma slt_chain x y z : slt x y = true -> slt y z = true -> slt x z = true.
Proof. score_cases. Qed.

Lemma slt_under x y z : slt x z = true -> slt y z = false -> slt x y = true.
Proof. score_cases. Qed.

(** The maximizing loop, entered with the incumbent [(B, bm)] and any
    [bound]: either no move has a brute-force reply value above [B] and the
    incumbent stays, or the loop returns the first move whose value is above
    [B] and above the values of all the moves before it, with that value; the
    moves after it are not above it, unless the loop was cut at that move. *)
Lemma max_loop_first_best d search :
  answers d search ->
  forall moves B bm bound (board : Board),
  exists v,
    for_each (max_body search) moves (mkFrame B bm B bound) board
    = (board, Returned v)
    /\ ((best_score v = B /\ best_move v = bm
         /\ forall x, In x moves ->
              sgt (brute_force d false (after board x)) B = false)
        \/ exists earlier m later,
             moves = earlier ++ m :: later
             /\ best_move v = Some m
             /\ best_score v = brute_force d false (after board m)
             /\ sgt (brute_force d false (after board m)) B = true
             /\ (forall x, In x earlier ->
                   sgt (brute_force d false (after board m))
                       (brute_force d false (after board x)) = true)
             /\ (sge (brute_force d false (after board m)) bound = false ->
                 forall x, In x later ->
                   sgt (brute_force d false (after board x))
                       (brute_force d false (after board m)) = false)).
Proof.
  intros Hs moves. induction moves as [|x rest IH]; intros B bm bound board.
  - eexists. split; [reflexivity|]. left. cbn [best_score best_move].
    repeat split. intros y [].
  - simpl for_each. unfold bind at 1.
    destruct (Hs false B bound (after board x)) as (s1 & mv1 & Hrun & Hle & Hex).
    rewrite (max_body_step search x (mkFrame B bm B bound) board _ _ _ _
               (push_after _ _) Hrun (pop_after _ _)).
    cbn [fst best_score alpha beta].
    set (v1 := brute_force d false (after board x)) in *.
    destruct (sgt s1 B) eqn:Hgt.
    + assert (s1 = v1) as -> by (eapply sgt_unique; eauto).
      rewrite (smax_improved _ _ Hgt). cbv zeta. cbn [alpha beta].
      destruct (sge v1 bound) eqn:Hge.
      * eexists. split; [reflexivity|]. right.
        exists [], x, rest. cbn [best_score best_move app].
        split; [reflexivity|]. split; [reflexivity|]. split; [reflexivity|].
        split; [exact Hgt|]. split; [intros y []|].
        intros Hno. change (sge v1 bound = false) in Hno. congruence.
      * destruct (IH v1 (Some x) bound board)
          as (v & Hloop & [(Hbs & Hbm & Hall)
                          | (e & m & l & -> & Hbm & Hbs & Hm & He & Hl)]).
        -- exists v. split; [exact Hloop|]. right.
           exists [], x, rest. cbn [app].
           split; [reflexivity|]. split; [exact Hbm|]. split; [exact Hbs|].
           split; [exact Hgt|]. split; [intros y []|].
           intros _. exact Hall.
        -- exists v. split; [exact Hloop|]. right.
           exists (x :: e), m, l. cbn [app].
           split; [reflexivity|]. split; [exact Hbm|]. split; [exact Hbs|].
           split; [eapply sgt_chain; eauto|]. split; [|exact Hl].
           intros y [<- | Hy]; [exact Hm | auto].
    + pose proof (sgt_below _ _ _ Hle Hgt) as Hv1.
      destruct (IH B bm bound board)
        as (v & Hloop & [(Hbs & Hbm & Hall)
                        | (e & m & l & -> & Hbm & Hbs & Hm & He & Hl)]).
      * exists v. split; [exact Hloop|]. left.
        split; [exact Hbs|]. split; [exact Hbm|].
        intros y [<- | Hy]; [exact Hv1 | auto].
      * exists v. split; [exact Hloop|]. right.
        exists (x :: e), m, l. cbn [app].
        split; [reflexivity|]. split; [exact Hbm|]. split; [exact Hbs|].
        split; [exact Hm|]. split; [|exact Hl].
        intros y [<- | Hy]; [eapply sgt_over; eauto | auto].
Qed.

(** The minimizing loop, mirrored. *)
Lemma min_loop_first_best d search :
  answers d search ->
  forall moves B bm bound (board : Board),
  exists v,
    for_each (min_body search) moves (mkFrame B bm bound B) board
    = (board, Returned v)
    /\ ((best_score v = B /\ best_move v = bm
         /\ forall x, In x moves ->
              slt (brute_force d true (after board x)) B = false)
        \/ exists earlier m later,
             moves = earlier ++ m :: later
             /\ best_move v = Some m
             /\ best_score v = brute_force d true (after board m)
             /\ slt (brute_force d true (after board m)) B = true
             /\ (forall x, In x earlier ->
                   slt (brute_force d true (after board m))
                       (brute_force d true (after board x)) = true)
             /\ (sge bound (brute_force d true (after board m)) = false ->
                 forall x, In x later ->
                   slt (brute_force d true (after board x))
                       (brute_force d true (after board m)) = false)).
Proof.
  intros Hs moves. induction moves as [|x rest IH]; intros B bm bound board.
  - eexists. split; [reflexivity|]. left. cbn [best_score best_move].
    repeat split. intros y [].
  - simpl for_each. unfold bind at 1.
    destruct (Hs true bound B (after board x)) as (s1 & mv1 & Hrun & Hle & Hex).
    rewrite (min_body_step search x (mkFrame B bm bound B) board _ _ _ _
               (push_after _ _) Hrun (pop_after _ _)).
    cbn [fst best_score alpha beta].
    set (v1 := brute_force d true (after board x)) in *.
    destruct (slt s1 B) eqn:Hlt.
    + assert (s1 = v1) as -> by (eapply slt_unique; eauto).
      rewrite (smin_improved _ _ Hlt). cbv zeta. cbn [alpha beta].
      destruct (sge bound v1) eqn:Hge.
      * eexists. split; [reflexivity|]. right.
        exists [], x, rest. cbn [best_score best_move app].
        split; [reflexivity|]. split; [reflexivity|]. split; [reflexivity|].
        split; [exact Hlt|]. split; [intros y []|].
        intros Hno. change (sge bound v1 = false) in Hno. congruence.
      * destruct (IH v1 (Some x) bound board)
          as (v & Hloop & [(Hbs & Hbm & Hall)
                          | (e & m & l & -> & Hbm & Hbs & Hm & He & Hl)]).
        -- exists v. split; [exact Hloop|]. right.
           exists [], x, rest. cbn [app].
           split; [reflexivity|]. split; [exact Hbm|]. split; [exact Hbs|].
           split; [exact Hlt|]. split; [intros y []|].
           intros _. exact Hall.
        -- exists v. split; [exact Hloop|]. right.
           exists (x :: e), m, l. cbn [app].
           split; [reflexivity|]. split; [exact Hbm|]. split; [exact Hbs|].
           split; [eapply slt_chain; eauto|]. split; [|exact Hl].
           intros y [<- | Hy]; [exact Hm | auto].
    + pose proof (slt_above _ _ _ Hle Hlt) as Hv1.
      destruct (IH B bm bound board)
        as (v & Hloop & [(Hbs & Hbm & Hall)
                        | (e & m & l & -> & Hbm & Hbs & Hm & He & Hl)]).
      * exists v. split; [exact Hloop|]. left.
        split; [exact Hbs|]. split; [exact Hbm|].
        intros y [<- | Hy]; [exact Hv1 | auto].
      * exists v. split; [exact Hloop|]. right.
        exists (x :: e), m, l. cbn [app].
        split; [reflexivity|]. split; [exact Hbm|]. split; [exact Hbs|].
        split; [exact Hm|]. split; [|exact Hl].
        intros y [<- | Hy]; [eapply slt_under; eauto | auto].
Qed.

(** C10. Every call of the search that enters its loop (depth [S d], game
    not over), whatever its window and flag, returns the first move, in
    enumeration order, that is strictly better than every move before it,
    with that move's value: the moves before it are strictly worse, and the
    moves after it are not strictly better, so a later move that ties does
    not replace it. The moves after it are left unexamined only when the
    cutoff stopped the loop at the returned move. No move is returned only
    when no move is strictly better than the starting infinity. Values are
    the brute-force values of the replies; "better" is greater when
    maximizing and smaller when minimizing. *)
Theorem first_best_move_is_kept d a b maximizing_player (board : Board) :
  is_game_over board = false ->
  exists score best_move,
    minimax (S d) a b maximizing_player board
    = (board, Returned (Some score, best_move))
    /\ match best_move with
       | None =>
           score = (if maximizing_player then NegInf else PosInf)
           /\ forall x, In x (moves_of board) ->
                improves maximizing_player
                  (brute_force d (negb maximizing_player) (after board x))
                  score = false
       | Some move =>
           exists earlier later,
             moves_of board = earlier ++ move :: later
             /\ score
                = brute_force d (negb maximizing_player) (after board move)
             /\ (forall x, In x earlier ->
                   improves maximizing_player score
                     (brute_force d (negb maximizing_player) (after board x))
                   = true)
             /\ (cutoff maximizing_player a b score = false ->
                 forall x, In x later ->
                   improves maximizing_player
                     (brute_force d (negb maximizing_player) (after board x))
                     score = false)
       end.
Proof.
  intros Hover.
  rewrite (minimax_loop d a b maximizing_player board (moves_of board) Hover
             (legal_moves_of board)).
  unfold try_except, bind. destruct maximizing_player; cbn [body_of negb].
  - destruct (max_loop_first_best d _ (minimax_sound d) (moves_of board)
                NegInf None b board)
      as (v & Hloop & [(Hbs & Hbm & Hall)
                      | (e & m & l & Hsplit & Hbm & Hbs & Hm & He & Hl)]);
      cbn [initial_frame]; rewrite Hloop; unfold ret, frame_result;
      rewrite Hbs, Hbm; eexists _, _; (split; [reflexivity|]).
    + split; [reflexivity | exact Hall].
    + exists e, l. auto.
  - destruct (min_loop_first_best d _ (minimax_sound d) (moves_of board)
                PosInf None a board)
      as (v & Hloop & [(Hbs & Hbm & Hall)
                      | (e & m & l & Hsplit & Hbm & Hbs & Hm & He & Hl)]);
      cbn [initial_frame]; unfold INFINITY; rewrite Hloop;
      unfold ret, frame_result; rewrite Hbs, Hbm; eexists _, _;
      (split; [reflexivity|]).
    + split; [reflexivity | exact Hall].
    + exists e, l. auto.
Qed.

End FirstBest.

(** ** The search on concrete positions *)

(** C2, at a position with white to move: the window [find_best_move] passes
    to [minimax] is alpha = +infinity, beta = -infinity, and alpha <= beta
    fails. *)
Theorem white_window_inverted :
  turn (RulesEngine := tree_engine false) (board_at kp_root) = WHITE
  /\ initial_window (turn (RulesEngine := tree_engine false) (board_at kp_root)) = (false, PosInf, NegInf)
  /\ sle PosInf NegInf = false.
Proof. repeat split. Qed.

(** C1, at the same position and depth 1: the moves are a1b2 (worth 9) and
    a1a2 (worth 0); the pruned search stops after the first and returns 9,
    and so does [find_best_move]; the brute-force minimum is 0. *)
Theorem white_score_is_not_the_minimum :
  let board : Board (RulesEngine := tree_engine false) := board_at kp_root in
  legal_moves board = Returned [(A1, B2); (A1, A2)]
  /\ brute_force 0 true (after board (A1, B2)) = Fin 9
  /\ brute_force 0 true (after board (A1, A2)) = Fin 0
  /\ minimax 1 PosInf NegInf false board
     = (board, Returned (Some (Fin 9), Some (A1, B2)))
  /\ find_best_move 1 board = (board, Returned (Some (Fin 9), Some (A1, B2)))
  /\ brute_force 1 false board = Fin 0.
Proof. vm_compute. repeat split. Qed.

(** Against C4 as stated: a maximizing call with alpha = 5 from the caller
    starts its second iteration, after a first move worth 3, with alpha = 3,
    not with max(5, 3). *)
Lemma caller_alpha_is_discarded :
  let board : Board (RulesEngine := tree_engine false) := board_at two_ply in
  ~ (forall v,
       visits (max_body (minimax 1)) (moves_of board)
              (initial_frame true (Fin 5) PosInf) board v ->
       alpha v = smax (Fin 5) (best_score v)).
Proof.
  intros board Hclaim.
  specialize (Hclaim (mkFrame (E := tree_engine false) (Fin 3) (Some (A1, A2)) (Fin 3) PosInf)).
  discriminate Hclaim.
  eapply visits_later; [|apply visits_now].
  vm_compute. reflexivity.
Qed.

(** On a tie the first move is returned: both moves of [tie] are worth 2. *)
Example find_best_move_tie :
  find_best_move (E := tree_engine false) 1 (board_at tie)
  = (board_at tie, Returned (Some (Fin 2), Some (A1, A2))).
Proof. vm_compute. reflexivity. Qed.

(** ** Instances of the theorems above *)

Lemma evaluate_board_sides_swapped_witness :
  evaluate_board (E := tree_engine false) (board_at stalemate_recolored)
  = - evaluate_board (E := tree_engine false) (board_at stalemate).
Proof.
  apply (evaluate_board_sides_swapped (E := tree_engine false)
           (board_at stalemate) (board_at stalemate_recolored)).
  vm_compute. reflexivity.
Defined.

Lemma tie_break_witness :
  let v := mkFrame (E := tree_engine false)
             (Fin 2) (Some (A1, A2)) (Fin 2) PosInf in
  max_body (E := tree_engine false) (minimax 0) (A1, B1) v (board_at tie)
  = (board_at tie, Returned (Continue v)).
Proof.
  intros v.
  destruct (tie_break (E := tree_engine false) true (minimax 0) (A1, B1) v
              (board_at tie)
              (after (E := tree_engine false) (board_at tie) (A1, B1))
              (after (E := tree_engine false) (board_at tie) (A1, B1))
              (board_at tie) (Fin 2) None
              eq_refl eq_refl eq_refl) as (c & Hrun & _ & _ & Htie).
  rewrite (Htie eq_refl) in Hrun. exact Hrun.
Defined.

Lemma first_best_move_is_kept_witness :
  exists score best_move,
    minimax (E := tree_engine false) 1 NegInf PosInf true (board_at tie)
    = (board_at tie, Returned (Some score, best_move))
    /\ match best_move with
       | None =>
           score = NegInf
           /\ forall x, In x (moves_of (E := tree_engine false) (board_at tie)) ->
                improves true
                  (brute_force (E := tree_engine false) 0 false
                     (after (E := tree_engine false) (board_at tie) x))
                  score = false
       | Some move =>
           exists earlier later,
             moves_of (E := tree_engine false) (board_at tie)
             = earlier ++ move :: later
             /\ score
                = brute_force (E := tree_engine false) 0 false
                    (after (E := tree_engine false) (board_at tie) move)
             /\ (forall x, In x earlier ->
                   improves true score
                     (brute_force (E := tree_engine false) 0 false
                        (after (E := tree_engine false) (board_at tie) x))
                   = true)
             /\ (cutoff true NegInf PosInf score = false ->
                 forall x, In x later ->
                   improves true
                     (brute_force (E := tree_engine false) 0 false
                        (after (E := tree_engine false) (board_at tie) x))
                     score = false)
       end.
Proof.
  apply (first_best_move_is_kept (E := tree_engine false)
           (HR := tree_engine_reliable) 0 NegInf PosInf true (board_at tie)).
  reflexivity.
Defined.

Lemma bound_is_best_score_witness :
  let v := mkFrame (E := tree_engine false)
             (Fin 3) (Some (A1, A2)) (Fin 3) PosInf in
  alpha v = best_score v /\ beta v = PosInf.
Proof.
  intros v.
  apply (bound_is_best_score (E := tree_engine false) true (minimax 1)
           (moves_of (E := tree_engine false) (board_at two_ply))
           (Fin 5) PosInf (board_at two_ply) v).
  eapply visits_later; [|apply visits_now].
  vm_compute. reflexivity.
Defined.

Lemma white_plays_first_move_witness :
  exists first rest z,
    legal_moves (RulesEngine := tree_engine false) (board_at kp_root)
    = Returned (first :: rest)
    /\ brute_force (E := tree_engine false) 0 true
         (after (E := tree_engine false) (board_at kp_root) first) = Fin z
    /\ find_best_move (E := tree_engine false) 1 (board_at kp_root)
       = (board_at kp_root, Returned (Some (Fin z), Some first)).
Proof.
  apply (white_plays_first_move (E := tree_engine false)
           (HR := tree_engine_reliable) tree_engine_no_dead_end 1
           (board_at kp_root)).
  - reflexivity.
  - reflexivity.
  - discriminate.
Defined.

Lemma terminal_correction_witness :
  find_best_move (E := tree_engine false) 2 (board_at checkmate)
  = (board_at checkmate, Returned (Some NegInf, None))
  /\ find_best_move (E := tree_engine false) 2 (board_at stalemate)
     = (board_at stalemate, Returned (Some (Fin 1), None)).
Proof.
  split.
  - apply (terminal_correction (E := tree_engine false)
             (HR := tree_engine_reliable) tree_engine_no_dead_end 2
             (board_at checkmate)).
    exists (Some (Fin 1)). vm_compute. reflexivity.
  - apply (terminal_correction (E := tree_engine false)
             (HR := tree_engine_reliable) tree_engine_no_dead_end 2
             (board_at stalemate)).
    exists (Some (Fin 1)). vm_compute. reflexivity.
Defined.

(** * Further properties *)

(** ** The evaluator, piece by piece *)

Section EvaluatorByPiece.

Context {E : RulesEngine}.

Lemma sum_Z_app l k : sum_Z (l ++ k) = sum_Z l + sum_Z k.
Proof. induction l as [|x l IH]; simpl; [reflexivity | rewrite IH; lia]. Qed.

Lemma sum_Z_permutation l k : l ≡ₚ k -> sum_Z l = sum_Z k.
Proof.
  induction 1 as [|x l k _ IH|x y l|l k m _ IH1 _ IH2]; simpl; lia.
Qed.

(** A piece is counted once, under its own kind and colour. *)
Lemma count_cons sq (p q : Piece) (l : list (Square * Piece)) :
  Z.of_nat (length (filter (fun sp => sp.2 = q) ((sq, p) :: l)))
  = counts_as p q + Z.of_nat (length (filter (fun sp => sp.2 = q) l)).
Proof.
  rewrite filter_cons. cbn [snd]. unfold counts_as.
  destruct (decide (p = q)); cbn [length]; lia.
Qed.

Lemma counted_once (p : Piece) :
  sum_Z (map (fun kind =>
                counts_as p (mkPiece kind BLACK)
                - counts_as p (mkPiece kind WHITE))
             PIECE_TYPES)
  = match color p with BLACK => 1 | WHITE => -1 end.
Proof. destruct p as [[] []]; reflexivity. Qed.

(** Summed over the kinds, the count differential gives each black piece
    +1 and each white piece -1. *)
Lemma count_by_piece (l : list (Square * Piece)) :
  sum_Z (map (fun kind =>
                (Z.of_nat (length (filter (fun sp => sp.2 = mkPiece kind BLACK) l))
                 - Z.of_nat (length (filter (fun sp => sp.2 = mkPiece kind WHITE) l)))
                * 10)
             PIECE_TYPES)
  = sum_Z (map (fun sp : Square * Piece =>
                  match color sp.2 with BLACK => 10 | WHITE => -10 end) l).
Proof.
  induction l as [|[sq p] l IH]; [reflexivity|].
  pose proof (counted_once p) as Honce.
  unfold PIECE_TYPES, sum_Z in *. cbn [map foldr snd] in *.
  rewrite !count_cons. destruct (color p); lia.
Qed.

Lemma sum_Z_weights (l : list (Square * Piece)) :
  sum_Z (map (fun sp : Square * Piece =>
                match color sp.2 with BLACK => 10 | WHITE => -10 end) l)
  + sum_Z (map (fun sp : Square * Piece =>
                  match color sp.2 with
                  | WHITE => canonical_value (piece_type sp.2)
                  | BLACK => - canonical_value (piece_type sp.2)
                  end) l)
  = sum_Z (map (fun sp : Square * Piece => piece_weight sp.2) l).
Proof.
  induction l as [|[sq [k c]] l IH]; [reflexivity|].
  unfold sum_Z in *. cbn [map foldr snd color piece_type] in *.
  pose proof (canonical_value_piece_value k) as Hk.
  unfold piece_weight at 1. cbn [color piece_type]. destruct c; lia.
Qed.

Lemma evaluate_board_weights (board : Board) :
  evaluate_board board
  = sum_Z (map (fun sp : Square * Piece => piece_weight sp.2) (pieces_on board)).
Proof.
  rewrite evaluate_board_terms.
  unfold count_differential, material_differential, count_of.
  rewrite count_by_piece. apply sum_Z_weights.
Qed.

Lemma piece_weight_range p :
  match color p with
  | BLACK => 1 <= piece_weight p <= 10
  | WHITE => -10 <= piece_weight p <= -1
  end.
Proof. destruct p as [[] []]; unfold piece_weight; simpl; lia. Qed.

(** X1. [evaluate_board] is a sum over the pieces on the board: a black piece
    adds 10 minus its value, a white piece adds its value minus 10. *)
Theorem evaluate_board_by_piece (board : Board) :
  evaluate_board board
  = sum_Z (map (fun sp : Square * Piece =>
                  match color sp.2 with
                  | BLACK => 10 - piece_value (piece_type sp.2)
                  | WHITE => piece_value (piece_type sp.2) - 10
                  end)
               (map_to_list (piece_map board))).
Proof.
  rewrite evaluate_board_terms.
  unfold count_differential, material_differential, count_of.
  rewrite count_by_piece. apply sum_Z_weights.
Qed.

(** X2. The evaluation is bounded by ten times the number of pieces on the
    board, in either direction. *)
Theorem evaluate_board_bounded (board : Board) :
  - (10 * Z.of_nat (size (piece_map board))) <= evaluate_board board
  /\ evaluate_board board <= 10 * Z.of_nat (size (piece_map board)).
Proof.
  rewrite evaluate_board_weights. unfold pieces_on.
  rewrite <- (length_map_to_list (piece_map board)).
  induction (map_to_list (piece_map board)) as [|[sq p] l IH].
  - simpl. lia.
  - unfold sum_Z in *. cbn [map foldr length snd] in *.
    rewrite Nat2Z.inj_succ.
    pose proof (piece_weight_range p) as Hp. destruct (color p); lia.
Qed.

(** X3. Taking a piece off the board changes the evaluation by what that
    piece added: taking a black piece lowers it by between 1 and 10, taking a
    white piece raises it by between 1 and 10. *)
Theorem evaluate_board_piece_removed (board board' : Board) sq p :
  piece_map board !! sq = Some p ->
  piece_map board' = delete sq (piece_map board) ->
  evaluate_board board' = evaluate_board board - piece_weight p
  /\ match color p with
     | BLACK => evaluate_board board - 10 <= evaluate_board board'
                <= evaluate_board board - 1
     | WHITE => evaluate_board board + 1 <= evaluate_board board'
                <= evaluate_board board + 10
     end.
Proof.
  intros Hsq Hdel.
  assert (evaluate_board board' = evaluate_board board - piece_weight p) as Heq.
  { rewrite !evaluate_board_weights. unfold pieces_on. rewrite Hdel.
    rewrite <- (sum_Z_permutation _ _
                  (Permutation_map (fun sp : Square * Piece => piece_weight sp.2)
                     (map_to_list_delete _ _ _ Hsq))).
    change (map ?f (?x :: ?l)) with (f x :: map f l).
    change (sum_Z (?x :: ?l)) with (x + sum_Z l). cbn [snd]. lia. }
  split; [exact Heq|].
  pose proof (piece_weight_range p) as Hp. destruct (color p); lia.
Qed.

End EvaluatorByPiece.

(** ** The search, whatever the engine does *)

Section SearchAnyEngine.

Context {E : RulesEngine}.

(** A call that returns a move took it from the loop. *)
Lemma minimax_move_from_loop depth a b mx (board b' : Board) s m :
  minimax depth a b mx board = (b', Returned (s, Some m)) ->
  depth <> O /\ is_game_over board = false
  /\ s <> None
  /\ exists moves, legal_moves board = Returned moves /\ In m moves.
Proof.
  destruct depth as [|d].
  { rewrite minimax_leaf by auto. discriminate. }
  destruct (is_game_over board) eqn:Hover.
  { rewrite minimax_leaf by auto. discriminate. }
  destruct (legal_moves board) as [moves|] eqn:Hmoves.
  - rewrite (minimax_loop d a b mx board moves Hover Hmoves).
    unfold try_except, bind.
    destruct (for_each _ moves _ board) as [b1 [v|]] eqn:Hrun;
      unfold ret, frame_result; [|discriminate].
    intros [= <- <- Hm]. split; [discriminate|]. split; [reflexivity|].
    split; [discriminate|]. exists moves. split; [reflexivity|].
    destruct (loop_keeps_or_improves _ _ _ _ _ _ _ Hrun)
      as [[_ Hsame] | [_ (m' & Hin & Hm')]].
    + rewrite Hm in Hsame. destruct mx; discriminate.
    + congruence.
  - cbn [minimax]. unfold try_except, bind, ask, query. rewrite Hover.
    destruct mx; rewrite Hmoves; discriminate.
Qed.

(** X4. A move returned by [find_best_move] is one of the moves the engine
    enumerates for the position, the position is not over, the depth is not 0
    and the move comes with a score. This needs nothing of the engine. *)
Theorem find_best_move_returns_legal_move depth (board b' : Board) score move :
  find_best_move depth board = (b', Returned (score, Some move)) ->
  (exists moves, legal_moves board = Returned moves /\ In move moves)
  /\ is_game_over board = false
  /\ depth <> O
  /\ score <> None.
Proof.
  unfold find_best_move, bind, ask.
  destruct (initial_window (turn board)) as [[mx a] b].
  destruct (minimax depth a b mx board) as [b1 [[s [m|]]|]] eqn:Hrun;
    [| |discriminate].
  - unfold ret. intros [= <- <- <-].
    destruct (minimax_move_from_loop _ _ _ _ _ _ _ _ Hrun)
      as (Hd & Hover & Hs & Hmoves).
    auto.
  - destruct (is_checkmate b1); unfold ret; discriminate.
Qed.

(** The score is [None] only together with the move. *)
Lemma minimax_none_score depth a b mx (board b' : Board) mv :
  minimax depth a b mx board = (b', Returned (None, mv)) -> mv = None.
Proof.
  destruct depth as [|d].
  { rewrite minimax_leaf by auto. discriminate. }
  destruct (is_game_over board) eqn:Hover.
  { rewrite minimax_leaf by auto. discriminate. }
  destruct (legal_moves board) as [moves|] eqn:Hmoves.
  - rewrite (minimax_loop d a b mx board moves Hover Hmoves).
    unfold try_except, bind.
    destruct (for_each _ moves _ board) as [b1 [v|]];
      unfold ret, frame_result; [discriminate|].
    intros [= <- <-]. reflexivity.
  - cbn [minimax]. unfold try_except, bind, ask, query. rewrite Hover.
    destruct mx; rewrite Hmoves; unfold ret; intros [= <- <-]; reflexivity.
Qed.

Section KeepsBoard.

Context {HU : UndoSafe E}.

Lemma minimax_keeps_board depth : in_place (minimax depth).
Proof.
  induction depth as [|d IH]; intros a b mx board; simpl;
    apply try_except_in_place.
  - reflexivity.
  - unfold bind, ask, query.
    destruct (is_game_over board); [reflexivity|].
    destruct mx.
    + destruct (legal_moves board) as [moves|]; [|reflexivity].
      pose proof (for_each_keeps _ (max_body_keeps _ IH) moves
                    (initial_frame true a b) board) as Hk.
      destruct (for_each _ _ _ _) as [b' [v|]]; simpl in *; subst; reflexivity.
    + destruct (legal_moves board) as [moves|]; [|reflexivity].
      pose proof (for_each_keeps _ (min_body_keeps _ IH) moves
                    (initial_frame false a b) board) as Hk.
      destruct (for_each _ _ _ _) as [b' [v|]]; simpl in *; subst; reflexivity.
Qed.

End KeepsBoard.

(** X5. When the engine undoes what it applied, [find_best_move] never
    raises, even if the engine raised during the search, and it leaves the
    board as it found it; a [None] score comes with no move. *)
Theorem find_best_move_keeps_board (HU : UndoSafe E) depth (board : Board) :
  exists score move,
    find_best_move depth board = (board, Returned (score, move))
    /\ (score = None -> move = None).
Proof.
  unfold find_best_move, bind, ask.
  destruct (initial_window (turn board)) as [[mx a] b].
  destruct (minimax_keeps_board depth a b mx board) as [[s mv] Hrun].
  rewrite Hrun. destruct mv as [m|].
  - unfold ret. eexists _, _. split; [reflexivity|].
    intros ->. apply minimax_none_score in Hrun. discriminate.
  - destruct (is_checkmate board); unfold ret; eexists _, _;
      (split; [reflexivity | auto]).
Qed.


End SearchAnyEngine.

(** ** The search over an engine that does not raise, continued *)

Section SearchReliable.

Context {E : RulesEngine} {HR : Reliable E}.

(** X6. A pruned call never over-claims: a maximizing call returns a score
    that is at most the brute-force value, and equal to it whenever it is
    below beta; a minimizing call returns a score that is at least the
    brute-force value, and equal to it whenever it is above alpha. *)
Theorem alpha_beta_bounds depth a b mx (board : Board) :
  exists s mv,
    minimax depth a b mx board = (board, Returned (Some s, mv))
    /\ (mx = true ->
        sle s (brute_force depth true board) = true
        /\ (slt s b = true -> s = brute_force depth true board))
    /\ (mx = false ->
        sle (brute_force depth false board) s = true
        /\ (slt a s = true -> s = brute_force depth false board)).
Proof.
  destruct (minimax_sound depth mx a b board) as (s & mv & Hrun & Hs).
  exists s, mv. split; [exact Hrun|].
  split; intros ->; simpl in Hs; destruct Hs as [Hle Hex];
    (split; [exact Hle|]); intros Hin;
    (destruct Hex as [Heq | Hout]; [exact Heq|]);
    clear -Hin Hout; exfalso; score_cases.
Qed.

(** The first maximizer: what the fold of [keep_first] returns. *)
Lemma keep_first_is_first_best (g : Move -> Score) l B bm V r :
  foldl (keep_first sgt g) (B, bm) l = (V, r) ->
  (V = B /\ r = bm /\ forall x, In x l -> sle (g x) B = true)
  \/ (exists l1 m l2,
        l = l1 ++ m :: l2 /\ r = Some m /\ g m = V /\ slt B V = true
        /\ (forall x, In x l1 -> slt (g x) V = true)
        /\ (forall x, In x l2 -> sle (g x) V = true)).
Proof.
  revert B bm. induction l as [|x l IH]; intros B bm; simpl.
  - intros [= <- <-]. left. repeat split; auto; intros x [].
  - unfold keep_first at 2. cbn [fst].
    destruct (sgt (g x) B) eqn:Hgt; intros Hfold;
      destruct (IH _ _ Hfold)
        as [(-> & -> & Hall) | (l1 & m & l2 & -> & -> & Hm & Hlt & H1 & H2)].
    + right. exists [], x, l. repeat split; auto; intros y [].
    + right. exists (x :: l1), m, l2. split; [reflexivity|].
      split; [reflexivity|]. split; [assumption|]. split.
      { clear -Hgt Hlt. generalize dependent (g x). score_cases. }
      split; [|assumption].
      intros y [<- | Hy]; [exact Hlt | auto].
    + left. split; [reflexivity|]. split; [reflexivity|].
      intros y [<- | Hy]; [|auto].
      clear -Hgt. generalize dependent (g x). score_cases.
    + right. exists (x :: l1), m, l2. split; [reflexivity|].
      split; [reflexivity|]. split; [assumption|]. split; [assumption|].
      split; [|assumption].
      intros y [<- | Hy]; [|auto].
      clear -Hgt Hlt. generalize dependent (g x). score_cases.
Qed.

Section NoDeadEnd.

Hypothesis HD : no_dead_end E.

(** On a live position at depth 1 or more, [find_best_move] returns the move
    of [ai_choice], a move the engine enumerates, on the unchanged board. *)
Lemma find_best_move_ai_choice depth (board : Board) :
  is_game_over board = false ->
  depth <> O ->
  exists s m,
    ai_choice depth board = Some m
    /\ In m (moves_of board)
    /\ find_best_move depth board = (board, Returned (Some s, Some m)).
Proof.
  intros Hover Hdepth.
  pose proof (find_best_move_finish depth board) as Hfinish.
  unfold ai_choice. destruct (turn board) eqn:Hturn; cbn [initial_window] in Hfinish.
  - destruct depth as [|d]; [congruence|].
    pose proof (live_has_move HD board Hover) as Hmoves.
    pose proof (legal_moves_of board) as Hlegal.
    destruct (moves_of board) as [|first rest]; [congruence|].
    destruct (minimax_finite HD d PosInf PosInf true (after board first))
      as (z & mv & Hrun & _).
    exists (Fin z), first. split; [reflexivity|]. split; [left; reflexivity|].
    apply (Hfinish (Some (Fin z)) (Some first)).
    simpl minimax. unfold try_except, bind at 1, ask. rewrite Hover.
    unfold bind at 1, query. rewrite Hlegal.
    simpl for_each. unfold bind, INFINITY.
    rewrite (min_body_step (minimax d) first (mkFrame PosInf None PosInf PosInf)
               board _ _ _ _ (push_after _ _) Hrun (pop_after _ _)).
    reflexivity.
  - destruct (minimax_full_window_choice depth NegInf PosInf board) as [Hrun _].
    destruct (minimax_finite HD depth NegInf PosInf true board)
      as (z & mv & Hrun' & Hbase).
    rewrite Hrun in Hrun'. injection Hrun' as Hs Hmv.
    destruct mv as [m|]; [|destruct (Hbase eq_refl); congruence].
    exists (Fin z), m. split; [exact Hmv|].
    rewrite Hs, Hmv in Hrun. split.
    + destruct (minimax_move_from_loop _ _ _ _ _ _ _ _ Hrun)
        as (_ & _ & _ & moves & Hlegal & Hin).
      rewrite legal_moves_of in Hlegal. injection Hlegal as <-. exact Hin.
    + apply (Hfinish (Some (Fin z)) (Some m)). exact Hrun.
Qed.

End NoDeadEnd.

(** X7. With black to move on a position that is not over, at depth 1 or
    more, [find_best_move] returns the brute-force value and the first move,
    in enumeration order, whose reply has that value: every earlier move has
    a strictly smaller reply value and no later move has a greater one. *)
Theorem black_plays_first_best_move (HD : no_dead_end E) depth (board : Board) :
  turn board = BLACK ->
  is_game_over board = false ->
  depth <> O ->
  exists earlier move later,
    moves_of board = earlier ++ move :: later
    /\ find_best_move depth board
       = (board, Returned (Some (brute_force depth true board), Some move))
    /\ brute_force (pred depth) false (after board move)
       = brute_force depth true board
    /\ (forall m, In m earlier ->
          slt (brute_force (pred depth) false (after board m))
              (brute_force depth true board) = true)
    /\ (forall m, In m later ->
          sle (brute_force (pred depth) false (after board m))
              (brute_force depth true board) = true).
Proof.
  intros Hturn Hover Hdepth.
  destruct (find_best_move_ai_choice HD depth board Hover Hdepth)
    as (s & m & Hchoice & _ & _).
  unfold ai_choice in Hchoice. rewrite Hturn in Hchoice.
  pose proof (find_best_move_black depth board Hturn) as Hrun.
  pose proof (brute_force_choice_score depth true board) as Hscore.
  destruct depth as [|d]; [congruence|]. cbn [pred].
  remember (brute_force (S d) true board) as v eqn:Hv. clear Hv.
  assert (brute_force_choice (S d) true board
          = foldl (keep_first sgt
                     (fun move => brute_force d false (after board move)))
                  (NegInf, None) (moves_of board)) as Hc
    by (cbn [brute_force_choice]; rewrite Hover; reflexivity).
  destruct (foldl _ _ (moves_of board)) as [V r] eqn:Hfold.
  rewrite Hc in Hchoice, Hrun, Hscore. cbn [fst snd] in Hchoice, Hrun, Hscore.
  subst V r.
  destruct (keep_first_is_first_best _ _ _ _ _ _ Hfold)
    as [(_ & Hnone & _) | (l1 & m' & l2 & Hl & Hm & Hval & _ & H1 & H2)];
    [discriminate|].
  injection Hm as <-.
  exists l1, m, l2. auto.
Qed.

(** X8. Every call of the search returns an integer score, never an
    infinity and never [None], and it returns no move exactly at the base
    case: a checkmate inside the tree is scored by [evaluate_board] alone. *)
Theorem minimax_scores_are_integers (HD : no_dead_end E) depth a b mx
    (board : Board) :
  exists z mv,
    minimax depth a b mx board = (board, Returned (Some (Fin z), mv))
    /\ (mv = None <-> depth = O \/ is_game_over board = true).
Proof.
  destruct (minimax_finite HD depth a b mx board) as (z & mv & Hrun & Hbase).
  exists z, mv. split; [exact Hrun|]. split; [exact Hbase|].
  intros Hleaf. rewrite (minimax_leaf depth a b mx board Hleaf) in Hrun.
  congruence.
Qed.

(** X9. [find_best_move] returns an infinite score only for a checkmate
    met at the base case (depth 0 or game over), and then with no move;
    in every other case its score is an integer. *)
Theorem infinite_score_only_for_checkmate (HD : no_dead_end E) depth
    (board : Board) :
  exists s mv,
    find_best_move depth board = (board, Returned (Some s, mv))
    /\ (is_checkmate board = true /\ (depth = O \/ is_game_over board = true) ->
        mv = None
        /\ s = match turn board with WHITE => NegInf | BLACK => PosInf end)
    /\ (~ (is_checkmate board = true
           /\ (depth = O \/ is_game_over board = true)) ->
        exists z, s = Fin z).
Proof.
  pose proof (find_best_move_finish depth board) as Hfinish.
  destruct (initial_window (turn board)) as [[mx a] b].
  destruct (minimax_finite HD depth a b mx board) as (z & mv & Hrun & Hbase).
  specialize (Hfinish _ _ Hrun).
  destruct mv as [m|].
  - exists (Fin z), (Some m). split; [exact Hfinish|]. split.
    + intros [_ Hleaf].
      rewrite (minimax_leaf depth a b mx board Hleaf) in Hrun. congruence.
    + eauto.
  - destruct (is_checkmate board) eqn:Hmate.
    + eexists _, _. split; [exact Hfinish|]. split; [auto|].
      intros Hnot. exfalso. apply Hnot. auto.
    + eexists _, _. split; [exact Hfinish|]. split; [|eauto].
      intros [? _]. discriminate.
Qed.

End SearchReliable.

(** ** The game driver *)

Section PlayLoop.

Context {E : RulesEngine}.

(** On a finished game the loop is not entered, whatever the fuel. *)
Lemma play_loop_over depth fuel n bc wc (board : Board) :
  is_game_over board = true ->
  play_loop depth fuel n bc wc board = (board, Returned (Some (bc, wc))).
Proof.
  intros Hover. destruct fuel; cbn [play_loop]; unfold bind, ask;
    rewrite Hover; reflexivity.
Qed.

(** An iteration in which a move is found and pushed. *)
Lemma play_loop_move depth fuel n bc wc (board b1 : Board) s m :
  is_game_over board = false ->
  find_best_move depth board = (board, Returned (s, Some m)) ->
  push board m = (b1, Returned tt) ->
  play_loop depth (S fuel) n bc wc board
  = if is_checkmate b1
    then (b1, Returned (Some (tick (turn board) (bc, wc))))
    else play_loop depth fuel 0 (fst (tick (turn board) (bc, wc)))
           (snd (tick (turn board) (bc, wc))) b1.
Proof.
  intros Hover Hfind Hpush. cbn [play_loop]. unfold bind at 1, ask at 1.
  rewrite Hover. unfold bind at 1, ask at 1. unfold bind at 1.
  assert (forall k : Z * Z -> Z * Z,
            (match turn board with
             | WHITE =>
                 bind (white_ai depth n)
                   (fun r => ret (snd r, bc, wc + 1))
             | BLACK =>
                 bind (black_ai depth n)
                   (fun r => ret (snd r, bc + 1, wc))
             end) board
            = (board, Returned (Some m, fst (tick (turn board) (bc, wc)),
                                snd (tick (turn board) (bc, wc))))) as Hai.
  { intros _. destruct (turn board); unfold white_ai, black_ai, bind, ret;
      rewrite Hfind; reflexivity. }
  rewrite (Hai (fun c => c)). unfold bind at 1. rewrite Hpush.
  unfold bind at 1, ask at 1. destruct (is_checkmate b1).
  - destruct (turn board); reflexivity.
  - unfold bind at 1, ask at 1. destruct (is_game_over b1) eqn:Hover1.
    + rewrite play_loop_over by exact Hover1.
      destruct (turn board); reflexivity.
    + reflexivity.
Qed.

(** An iteration in which no move is found. *)
Lemma play_loop_no_move depth fuel n bc wc (board : Board) s :
  is_game_over board = false ->
  find_best_move depth board = (board, Returned (s, None)) ->
  play_loop depth (S fuel) n bc wc board
  = if 2 <=? n + 1
    then (board, Returned (Some (tick (turn board) (bc, wc))))
    else play_loop depth fuel (n + 1) (fst (tick (turn board) (bc, wc)))
           (snd (tick (turn board) (bc, wc))) board.
Proof.
  intros Hover Hfind. cbn [play_loop]. unfold bind at 1, ask at 1.
  rewrite Hover. unfold bind at 1, ask at 1. unfold bind at 1.
  assert ((match turn board with
           | WHITE =>
               bind (white_ai depth n)
                 (fun r => ret (snd r, bc, wc + 1))
           | BLACK =>
               bind (black_ai depth n)
                 (fun r => ret (snd r, bc + 1, wc))
           end) board
          = (board, Returned (None, fst (tick (turn board) (bc, wc)),
                              snd (tick (turn board) (bc, wc))))) as Hai.
  { destruct (turn board); unfold white_ai, black_ai, bind, ret;
      rewrite Hfind; reflexivity. }
  rewrite Hai. destruct (2 <=? n + 1); destruct (turn board); reflexivity.
Qed.

(** X10. If [find_best_move] finds no move on a position that is not over
    (the search raised inside), [play_chess]'s loop asks once more, gets the
    same answer, and returns: the side to move is counted twice, the other
    side not at all, and no move is pushed. *)
Theorem play_loop_gives_up_after_two depth fuel bc wc (board : Board) s :
  is_game_over board = false ->
  find_best_move depth board = (board, Returned (s, None)) ->
  play_loop depth (S (S fuel)) 0 bc wc board
  = (board,
     Returned (Some (match turn board with
                     | WHITE => (bc, wc + 2)
                     | BLACK => (bc + 2, wc)
                     end))).
Proof.
  intros Hover Hfind.
  rewrite (play_loop_no_move depth (S fuel) 0 bc wc board s Hover Hfind).
  change (2 <=? 0 + 1) with false. cbv iota.
  rewrite (play_loop_no_move depth fuel (0 + 1) _ _ board s Hover Hfind).
  change (2 <=? 0 + 1 + 1) with true. cbv iota.
  destruct (turn board); cbn [tick fst snd]; rewrite <- !Z.add_assoc;
    reflexivity.
Qed.

(** X11. The counts [play_chess]'s loop returns are never below the counts
    it was given, and together they grew by at most the number of
    iterations. *)
Theorem play_loop_counts_grow depth fuel n bc wc (board b' : Board) bc' wc' :
  play_loop depth fuel n bc wc board = (b', Returned (Some (bc', wc'))) ->
  bc <= bc' /\ wc <= wc' /\ (bc' - bc) + (wc' - wc) <= Z.of_nat fuel.
Proof.
  revert n bc wc board.
  induction fuel as [|fuel IH]; intros n bc wc board.
  - cbn [play_loop]. unfold bind, ask, ret.
    destruct (is_game_over board); [|discriminate].
    intros [= <- <- <-]. lia.
  - destruct (is_game_over board) eqn:Hover.
    { rewrite play_loop_over by exact Hover. intros [= <- <- <-]. lia. }
    cbn [play_loop]. unfold white_ai, black_ai, bind, ask, ret.
    rewrite Hover.
    destruct (turn board);
      destruct (find_best_move depth board) as [b1 [[s [m|]]|]];
      cbn [fst snd]; try discriminate;
      try (destruct (push b1 m) as [b2 [[]|]]; [|discriminate];
           destruct (is_checkmate b2); [intros [= <- <- <-]; lia|];
           destruct (is_game_over b2); [intros [= <- <- <-]; lia|];
           intros Hrest; apply IH in Hrest; lia);
      (destruct (2 <=? n + 1); [intros [= <- <- <-]; lia|];
       intros Hrest; apply IH in Hrest; lia).
Qed.

End PlayLoop.

Section PlayReliable.

Context {E : RulesEngine} {HR : Reliable E}.

Hypothesis HD : no_dead_end E.

Lemma play_loop_referee depth fuel n bc wc (board : Board) :
  depth <> O ->
  match referee depth fuel board (bc, wc) with
  | Some (b', counts) =>
      play_loop depth fuel n bc wc board = (b', Returned (Some counts))
  | None => snd (play_loop depth fuel n bc wc board) = Returned None
  end.
Proof.
  intros Hdepth. revert n bc wc board.
  induction fuel as [|fuel IH]; intros n bc wc board.
  - cbn [referee play_loop]. unfold bind, ask, ret.
    destruct (is_game_over board); reflexivity.
  - destruct (is_game_over board) eqn:Hover.
    { cbn [referee]. rewrite Hover. apply play_loop_over. exact Hover. }
    destruct (find_best_move_ai_choice HD depth board Hover Hdepth)
      as (s & m & Hchoice & _ & Hfind).
    rewrite (play_loop_move depth fuel n bc wc board (after board m) _ m
               Hover Hfind (push_after board m)).
    cbn [referee]. rewrite Hover, Hchoice.
    destruct (is_checkmate (after board m)); [reflexivity|].
    destruct (tick (turn board) (bc, wc)) as [bc1 wc1]. apply IH.
Qed.

Lemma live_rank_positive rank (board : Board) :
  shrinking E rank -> is_game_over board = false -> (0 < rank board)%nat.
Proof.
  intros Hrank Hover.
  pose proof (live_has_move HD board Hover) as Hmoves.
  destruct (moves_of board) as [|m rest] eqn:Hm; [congruence|].
  assert (In m (moves_of board)) as Hin by (rewrite Hm; left; reflexivity).
  specialize (Hrank board m Hover Hin). lia.
Qed.

Lemma referee_finishes depth rank fuel (board : Board) counts :
  depth <> O ->
  shrinking E rank ->
  (rank board <= fuel)%nat ->
  exists b' counts',
    referee depth fuel board counts = Some (b', counts')
    /\ (is_game_over b' = true \/ is_checkmate b' = true).
Proof.
  intros Hdepth Hrank. revert board counts.
  induction fuel as [|fuel IH]; intros board counts Hfuel;
    cbn [referee]; destruct (is_game_over board) eqn:Hover; eauto.
  - pose proof (live_rank_positive rank board Hrank Hover). lia.
  - destruct (find_best_move_ai_choice HD depth board Hover Hdepth)
      as (s & m & Hchoice & Hin & _).
    rewrite Hchoice.
    destruct (is_checkmate (after board m)) eqn:Hmate; [eauto|].
    apply IH. specialize (Hrank board m Hover Hin). lia.
Qed.

(** X12. On an engine that does not raise, the game [play_chess] plays is
    the referee's replay: at every position that is not over, white plays
    the first enumerated move and black the first best move of the unpruned
    search at the given depth, the mover's count goes up by one, and play
    stops at a checkmate or when the game is over. *)
Theorem play_loop_plays_ai_choices depth fuel n bc wc (board b' : Board)
    counts :
  depth <> O ->
  referee depth fuel board (bc, wc) = Some (b', counts) ->
  play_loop depth fuel n bc wc board = (b', Returned (Some counts)).
Proof.
  intros Hdepth Href.
  pose proof (play_loop_referee depth fuel n bc wc board Hdepth) as Hplay.
  rewrite Href in Hplay. exact Hplay.
Qed.

(** X13. On an engine that does not raise and in which every move brings
    the end of the game nearer (by [rank]), [play_chess]'s loop returns once
    the fuel covers the rank of the starting position, and the board it
    leaves is a finished game or a checkmate. *)
Theorem play_loop_finishes depth rank fuel n bc wc (board : Board) :
  depth <> O ->
  shrinking E rank ->
  (rank board <= fuel)%nat ->
  exists b' bc' wc',
    play_loop depth fuel n bc wc board = (b', Returned (Some (bc', wc')))
    /\ (is_game_over b' = true \/ is_checkmate b' = true).
Proof.
  intros Hdepth Hrank Hfuel.
  destruct (referee_finishes depth rank fuel board (bc, wc) Hdepth Hrank Hfuel)
    as (b' & [bc' wc'] & Href & Hend).
  exists b', bc', wc'. split; [|exact Hend].
  pose proof (play_loop_referee depth fuel n bc wc board Hdepth) as Hplay.
  rewrite Href in Hplay. exact Hplay.
Qed.

End PlayReliable.

(** ** The script over the lines of the file *)

Section Script.

Context {E : RulesEngine} {R : FenReader E}.

Lemma play_chess_over fuel fen bc wc (board : Board) :
  new_board fen = Returned board ->
  is_game_over board = true ->
  play_chess fuel fen bc wc = Returned (Some (bc, wc)).
Proof.
  intros Hnew Hover. unfold play_chess. rewrite Hnew.
  rewrite play_loop_over by exact Hover. reflexivity.
Qed.

Lemma play_chess_counts_grow fuel fen bc wc bc' wc' :
  play_chess fuel fen bc wc = Returned (Some (bc', wc')) ->
  bc <= bc' /\ wc <= wc'.
Proof.
  unfold play_chess. destruct (new_board fen) as [board|]; [|discriminate].
  destruct (play_loop 5 fuel 0 bc wc board) as [b' out] eqn:Hplay.
  cbn [snd]. intros ->.
  destruct (play_loop_counts_grow _ _ _ _ _ _ _ _ _ Hplay) as (? & ? & _).
  auto.
Qed.

(** X14. Running the script on two lists of lines one after the other is
    running it on the first list and, if that returns, on the second list
    from the counts the first left; if the first raises or runs out of fuel,
    so does the whole. *)
Theorem play_boards_app fuel fens1 fens2 bc wc games :
  play_boards fuel (fens1 ++ fens2) bc wc games
  = match play_boards fuel fens1 bc wc games with
    | Returned (Some (bc', wc', games')) =>
        play_boards fuel fens2 bc' wc' games'
    | Returned None => Returned None
    | Raised => Raised
    end.
Proof.
  revert bc wc games. induction fens1 as [|fen rest IH]; intros bc wc games.
  - reflexivity.
  - cbn [app play_boards].
    destruct (new_board (strip fen)) as [board|]; [|reflexivity].
    destruct (is_game_over board);
      (destruct (play_chess fuel (strip fen) _ _) as [[[bc1 wc1]|]|];
       [apply IH | reflexivity | reflexivity]).
Qed.

(** X15. A line whose position is already over resets the tallies: after
    it the script goes on with both counts at zero, whatever they were, and
    this for any fuel. *)
Theorem finished_position_resets_tallies fuel fen rest bc wc games
    (board : Board) :
  new_board (strip fen) = Returned board ->
  is_game_over board = true ->
  play_boards fuel (fen :: rest) bc wc games
  = play_boards fuel rest 0 0 (games + 1).
Proof.
  intros Hnew Hover. cbn [play_boards]. rewrite Hnew, Hover.
  rewrite (play_chess_over fuel (strip fen) 0 0 board Hnew Hover).
  reflexivity.
Qed.

(** X16. When the script returns, it has counted one game per line, and
    the tallies are not negative. *)
Theorem main_counts fuel fens bc wc games :
  main fuel fens = Returned (Some (bc, wc, games)) ->
  games = Z.of_nat (length fens) /\ 0 <= bc /\ 0 <= wc.
Proof.
  unfold main.
  assert (forall bc0 wc0 g0,
            0 <= bc0 -> 0 <= wc0 ->
            play_boards fuel fens bc0 wc0 g0 = Returned (Some (bc, wc, games)) ->
            games = g0 + Z.of_nat (length fens) /\ 0 <= bc /\ 0 <= wc) as Hgen.
  { induction fens as [|fen rest IH]; intros bc0 wc0 g0 Hb Hw.
    - cbn [play_boards length]. intros [= <- <- <-]. lia.
    - cbn [play_boards length].
      destruct (new_board (strip fen)) as [board|]; [|discriminate].
      destruct (is_game_over board);
        (destruct (play_chess fuel (strip fen) _ _) as [[[bc1 wc1]|]|] eqn:Hplay;
         [|discriminate|discriminate]);
        apply play_chess_counts_grow in Hplay; intros Hrest;
        apply IH in Hrest; lia. }
  intros Hrun. apply Hgen in Hrun; lia.
Qed.

(** X17. A malformed line ends the script with the exception of
    [chess.Board]: no later line is played, however many games were played
    before it. *)
Theorem malformed_line_aborts fuel fens1 fen fens2 bc wc games :
  new_board (strip fen) = Raised ->
  play_boards fuel (fens1 ++ fen :: fens2) bc wc games
  = match play_boards fuel fens1 bc wc games with
    | Returned (Some _) => Raised
    | other => other
    end.
Proof.
  intros Hnew. revert bc wc games.
  induction fens1 as [|f rest IH]; intros bc wc games.
  - cbn [app play_boards]. rewrite Hnew. reflexivity.
  - cbn [app play_boards].
    destruct (new_board (strip f)) as [board|]; [|reflexivity].
    destruct (is_game_over board);
      (destruct (play_chess fuel (strip f) _ _) as [[[bc1 wc1]|]|];
       [apply IH | reflexivity | reflexivity]).
Qed.

End Script.

(** ** The tree engine: every move shortens the game *)

Lemma successor_some m (next : list (TreeMove * Position)) :
  In m (map fst next) -> exists q, successor m next = Some q.
Proof.
  induction next as [|[m' q'] rest IH]; cbn [map fst In successor]; [tauto|].
  intros [-> | Hin].
  - exists q'. destruct (decide (m = m)); [reflexivity | congruence].
  - destruct (decide (m = m')); eauto.
Qed.

Lemma successor_height m (next : list (TreeMove * Position)) q t pm c d f :
  successor m next = Some q ->
  (height q < height (mkPosition t pm c d f next))%nat.
Proof.
  induction next as [|[m' q'] rest IH]; cbn [successor]; [discriminate|].
  cbn [height] in *. destruct (decide (m = m')).
  - intros [= ->]. lia.
  - intros Hs. specialize (IH Hs). lia.
Qed.

Lemma tree_height_shrinks :
  shrinking (tree_engine false) (fun b => height (current b)).
Proof.
  intros [p st] m _ Hin. unfold moves_of in Hin. cbn in Hin.
  destruct (successor_some m (pos_next p) Hin) as [q Hq].
  unfold after. cbn. rewrite Hq. cbn.
  destruct p as [t pm c d f next]. apply (successor_height m next q). exact Hq.
Qed.

(** ** Instances of the further properties *)

Lemma evaluate_board_piece_removed_witness :
  evaluate_board (E := tree_engine false)
    (board_at (mkPosition BLACK (delete A2 (pos_pieces kp_root))
                 false true false []))
  = evaluate_board (E := tree_engine false) (board_at kp_root) - 9.
Proof.
  apply (evaluate_board_piece_removed (E := tree_engine false)
           (board_at kp_root)
           (board_at (mkPosition BLACK (delete A2 (pos_pieces kp_root))
                        false true false []))
           A2 bP).
  - vm_compute. reflexivity.
  - reflexivity.
Defined.

Lemma find_best_move_returns_legal_move_witness :
  exists moves,
    legal_moves (RulesEngine := tree_engine false) (board_at tie)
    = Returned moves
    /\ In (A1, A2) moves.
Proof.
  apply (find_best_move_returns_legal_move (E := tree_engine false) 1
           (board_at tie) (board_at tie) (Some (Fin 2)) (A1, A2)).
  vm_compute. reflexivity.
Defined.

Lemma find_best_move_keeps_board_witness :
  exists score move,
    find_best_move (E := tree_engine true) 5 (board_at faulty)
    = (board_at faulty, Returned (score, move))
    /\ (score = None -> move = None).
Proof.
  apply (find_best_move_keeps_board (E := tree_engine true)
           (tree_engine_undo_safe true) 5 (board_at faulty)).
Defined.

Lemma alpha_beta_bounds_witness :
  exists s mv,
    minimax (E := tree_engine false) 2 (Fin 5) PosInf true (board_at two_ply)
    = (board_at two_ply, Returned (Some s, mv))
    /\ (true = true ->
        sle s (brute_force (E := tree_engine false) 2 true (board_at two_ply))
        = true
        /\ (slt s PosInf = true ->
            s = brute_force (E := tree_engine false) 2 true (board_at two_ply)))
    /\ (true = false ->
        sle (brute_force (E := tree_engine false) 2 false (board_at two_ply)) s
        = true
        /\ (slt (Fin 5) s = true ->
            s = brute_force (E := tree_engine false) 2 false
                  (board_at two_ply))).
Proof.
  apply (alpha_beta_bounds (E := tree_engine false)
           (HR := tree_engine_reliable) 2 (Fin 5) PosInf true
           (board_at two_ply)).
Defined.

Lemma black_plays_first_best_move_witness :
  exists earlier move later,
    moves_of (E := tree_engine false) (board_at tie) = earlier ++ move :: later
    /\ find_best_move (E := tree_engine false) 1 (board_at tie)
       = (board_at tie,
          Returned (Some (brute_force (E := tree_engine false) 1 true
                            (board_at tie)), Some move))
    /\ brute_force (E := tree_engine false) 0 false
         (after (E := tree_engine false) (board_at tie) move)
       = brute_force (E := tree_engine false) 1 true (board_at tie)
    /\ (forall m, In m earlier ->
          slt (brute_force (E := tree_engine false) 0 false
                 (after (E := tree_engine false) (board_at tie) m))
              (brute_force (E := tree_engine false) 1 true (board_at tie))
          = true)
    /\ (forall m, In m later ->
          sle (brute_force (E := tree_engine false) 0 false
                 (after (E := tree_engine false) (board_at tie) m))
              (brute_force (E := tree_engine false) 1 true (board_at tie))
          = true).
Proof.
  apply (black_plays_first_best_move (E := tree_engine false)
           (HR := tree_engine_reliable) tree_engine_no_dead_end 1
           (board_at tie)).
  - reflexivity.
  - reflexivity.
  - discriminate.
Defined.

Lemma minimax_scores_are_integers_witness :
  exists z mv,
    minimax (E := tree_engine false) 2 NegInf PosInf true (board_at two_ply)
    = (board_at two_ply, Returned (Some (Fin z), mv))
    /\ (mv = None <->
        2%nat = O
        \/ is_game_over (RulesEngine := tree_engine false) (board_at two_ply)
           = true).
Proof.
  apply (minimax_scores_are_integers (E := tree_engine false)
           (HR := tree_engine_reliable) tree_engine_no_dead_end 2 NegInf PosInf
           true (board_at two_ply)).
Defined.

Lemma infinite_score_only_for_checkmate_witness :
  find_best_move (E := tree_engine false) 3 (board_at checkmate)
  = (board_at checkmate, Returned (Some NegInf, None)).
Proof.
  destruct (infinite_score_only_for_checkmate (E := tree_engine false)
              (HR := tree_engine_reliable) tree_engine_no_dead_end 3
              (board_at checkmate)) as (s & mv & Hrun & Hmate & _).
  destruct Hmate as [-> ->]; [split; [reflexivity | right; reflexivity]|].
  exact Hrun.
Defined.

Lemma play_loop_gives_up_after_two_witness :
  play_loop (E := tree_engine true) 5 2 0 0 0 (board_at faulty)
  = (board_at faulty, Returned (Some (2, 0))).
Proof.
  apply (play_loop_gives_up_after_two (E := tree_engine true) 5 0 0 0
           (board_at faulty) None).
  - reflexivity.
  - vm_compute. reflexivity.
Defined.

Lemma play_loop_counts_grow_witness :
  play_loop (E := tree_engine false) 5 2 0 3 7 (board_at tie)
  = (after (E := tree_engine false) (board_at tie) (A1, A2),
     Returned (Some (4, 7)))
  /\ 3 <= 4 /\ 7 <= 7 /\ (4 - 3) + (7 - 7) <= 2.
Proof.
  assert (play_loop (E := tree_engine false) 5 2 0 3 7 (board_at tie)
          = (after (E := tree_engine false) (board_at tie) (A1, A2),
             Returned (Some (4, 7)))) as Hrun by (vm_compute; reflexivity).
  split; [exact Hrun|].
  exact (play_loop_counts_grow (E := tree_engine false) 5 2 0 3 7
           (board_at tie)
           (after (E := tree_engine false) (board_at tie) (A1, A2)) 4 7 Hrun).
Defined.

Lemma play_loop_plays_ai_choices_witness :
  play_loop (E := tree_engine false) 5 2 0 3 7 (board_at tie)
  = (after (E := tree_engine false) (board_at tie) (A1, A2),
     Returned (Some (4, 7))).
Proof.
  apply (play_loop_plays_ai_choices (E := tree_engine false)
           (HR := tree_engine_reliable) tree_engine_no_dead_end 5 2 0 3 7
           (board_at tie)).
  - discriminate.
  - vm_compute. reflexivity.
Defined.

Lemma play_loop_finishes_witness :
  exists b' bc' wc',
    play_loop (E := tree_engine false) 5 2 0 0 0 (board_at two_ply)
    = (b', Returned (Some (bc', wc')))
    /\ (is_game_over (RulesEngine := tree_engine false) b' = true
        \/ is_checkmate (RulesEngine := tree_engine false) b' = true).
Proof.
  apply (play_loop_finishes (E := tree_engine false)
           (HR := tree_engine_reliable) tree_engine_no_dead_end 5
           (fun b => height (current b)) 2 0 0 0 (board_at two_ply)).
  - discriminate.
  - exact tree_height_shrinks.
  - vm_compute. lia.
Defined.

Lemma finished_position_resets_tallies_witness :
  play_boards (E := tree_engine false) (R := tree_reader false) 4
    [Some stalemate; Some tie] 3 7 0
  = play_boards (E := tree_engine false) (R := tree_reader false) 4
      [Some tie] 0 0 (0 + 1).
Proof.
  apply (finished_position_resets_tallies (E := tree_engine false)
           (R := tree_reader false) 4 (Some stalemate) [Some tie] 3 7 0
           (board_at stalemate)).
  - reflexivity.
  - reflexivity.
Defined.

Lemma main_counts_witness :
  main (E := tree_engine false) (R := tree_reader false) 4
    [Some two_ply; Some tie]
  = Returned (Some (2, 1, 2))
  /\ 2 = Z.of_nat (length [Some two_ply; Some tie]) /\ 0 <= 2 /\ 0 <= 1.
Proof.
  assert (main (E := tree_engine false) (R := tree_reader false) 4
            [Some two_ply; Some tie]
          = Returned (Some (2, 1, 2))) as Hrun by (vm_compute; reflexivity).
  split; [exact Hrun|].
  exact (main_counts (E := tree_engine false) (R := tree_reader false) 4
           [Some two_ply; Some tie] 2 1 2 Hrun).
Defined.

Lemma malformed_line_aborts_witness :
  play_boards (E := tree_engine false) (R := tree_reader false) 4
    ([Some tie] ++ None :: [Some two_ply]) 0 0 0
  = Raised.
Proof.
  refine (eq_trans
            (malformed_line_aborts (E := tree_engine false)
               (R := tree_reader false) 4 [Some tie] None [Some two_ply] 0 0 0
               eq_refl) _).
  vm_compute. reflexivity.
Defined.
